(** * MPD playlist resolution: registry dispatch and the SoundCloud extractor

    A shallow embedding of [src/PlaylistRegistry.cxx] and
    [src/playlist/SoundCloudPlaylistPlugin.cxx].

    - C strings ([char *]) are [string]; a nullable [char *] is
      [option string].
    - [int] and [long] members are [Z].
    - The YAJL decoder and the input stream are external: what they deliver
      (callback events, status codes, read results) is the input of the
      model.
    - Plugin entry points act on an abstract world [W]; every call the
      registry makes is recorded in a trace. *)

From Stdlib Require Import ZArith String Ascii List Bool Lia.
From stdpp Require Import base list.
Import ListNotations.

(** ** C string helpers *)

Module CStr.

Local Open Scope Z_scope.

(** The byte read through a [char *]: the first character, or the
    terminating NUL when the string is exhausted. *)
Definition peek (s : string) : Z :=
  match s with
  | EmptyString => 0
  | String c _ => Z.of_nat (nat_of_ascii c)
  end.

Definition advance (s : string) : string :=
  match s with
  | EmptyString => EmptyString
  | String _ r => r
  end.

(** [strncmp(s1, s2, n)]: compare at most [n] bytes, stopping at the first
    difference or at a NUL. *)
Fixpoint strncmp (s1 s2 : string) (n : nat) : Z :=
  match n with
  | O => 0
  | S n' =>
      let c1 := peek s1 in
      let c2 := peek s2 in
      if negb (c1 =? c2) then c1 - c2
      else if c1 =? 0 then 0
      else strncmp (advance s1) (advance s2) n'
  end.

(** [strcmp(a, b) == 0] *)
Definition streq (a b : string) : bool := String.eqb a b.

(** [g_str_has_prefix(s, p)] *)
Definition g_str_has_prefix (s p : string) : bool := String.prefix p s.

(** [g_strndup(s, n)]: the first [n] bytes of [s], cut at the first NUL. *)
Fixpoint g_strndup (s : string) (n : nat) : string :=
  match n, s with
  | S n', String c r =>
      if Ascii.eqb c zero then EmptyString else String c (g_strndup r n')
  | _, _ => EmptyString
  end.

(** [g_strconcat(a1, ..., NULL)]: the variadic list ends at the first
    NULL; a NULL first argument gives NULL. *)
Fixpoint concat_until_null (args : list (option string)) : string :=
  match args with
  | Some s :: rest => s ++ concat_until_null rest
  | _ => EmptyString
  end.

Definition g_strconcat (args : list (option string)) : option string :=
  match args with
  | Some _ :: _ => Some (concat_until_null args)
  | _ => None
  end.

(** [strchr(s, c)] as the offset of the first occurrence. *)
Fixpoint strchr (s : string) (c : ascii) : option nat :=
  match s with
  | EmptyString => None
  | String x r => if Ascii.eqb x c then Some O else option_map S (strchr r c)
  end.

End CStr.

(** ** The SoundCloud playlist plugin *)

Module SoundCloud.

Import CStr.
Local Open Scope Z_scope.

(** *** Songs and tags (declared in Song.hxx and Tag.hxx)

    [time] holds the quotient computed by [handle_end_map]; the width of
    the member is declared in Tag.hxx. *)

Inductive tag_type := TAG_NAME.

Record Tag := mkTag {
  time : Z;
  items : list (tag_type * string)
}.

(** [uri] is the pointer handed to [Song::NewRemote]. *)
Record Song := mkSong {
  uri : option string;
  tag : Tag
}.

(** *** Parser state *)

(** [enum key] *)
Definition Duration : Z := 0.
Definition Title : Z := 1.
Definition Stream_URL : Z := 2.
Definition Other : Z := 3.

(** [key_str[]]; the fourth entry is NULL. *)
Definition key_str : list (option string) :=
  [Some "duration"%string; Some "title"%string; Some "stream_url"%string; None].

Record parse_data := mkData {
  key : Z;
  stream_url : option string;
  duration : Z;
  title : option string;
  got_url : Z;
  songs : list Song
}.

Definition set_key (k : Z) (d : parse_data) : parse_data :=
  mkData k (stream_url d) (duration d) (title d) (got_url d) (songs d).
Definition set_stream_url (u : option string) (d : parse_data) : parse_data :=
  mkData (key d) u (duration d) (title d) (got_url d) (songs d).
Definition set_duration (v : Z) (d : parse_data) : parse_data :=
  mkData (key d) (stream_url d) v (title d) (got_url d) (songs d).
Definition set_title (t : option string) (d : parse_data) : parse_data :=
  mkData (key d) (stream_url d) (duration d) t (got_url d) (songs d).
Definition set_got_url (g : Z) (d : parse_data) : parse_data :=
  mkData (key d) (stream_url d) (duration d) (title d) g (songs d).
Definition emplace_front (s : Song) (d : parse_data) : parse_data :=
  mkData (key d) (stream_url d) (duration d) (title d) (got_url d)
         (s :: songs d).

(** [int] arithmetic. Overflow of [got_url++] is undefined in C; the model
    wraps in two's complement. *)
Definition int_wrap (z : Z) : Z := (z + 2 ^ 31) mod 2 ^ 32 - 2 ^ 31.

(** *** Callbacks

    Every callback returns 1 (continue parsing); only the effect on
    [parse_data] is kept. *)

Definition handle_integer (intval : Z) (d : parse_data) : parse_data :=
  if key d =? Duration then set_duration intval d else d.

Definition handle_string (stringval : string) (d : parse_data) : parse_data :=
  let n := String.length stringval in
  if key d =? Title then
    set_title (Some (g_strndup stringval n)) d
  else if key d =? Stream_URL then
    set_got_url 1 (set_stream_url (Some (g_strndup stringval n)) d)
  else d.

(** The [for (i = 0; i < Other; ++i)] loop of [handle_mapkey], over the
    entries of [key_str] starting at index [i]. *)
Fixpoint mapkey_loop (stringval : string) (names : list (option string))
    (i : Z) : Z :=
  match names with
  | Some name :: rest =>
      if i <? Other then
        if strncmp stringval name (String.length stringval) =? 0 then i
        else mapkey_loop stringval rest (i + 1)
      else Other
  | _ => Other
  end.

Definition handle_mapkey (stringval : string) (d : parse_data) : parse_data :=
  set_key (mapkey_loop stringval key_str 0) d.

Definition handle_start_map (d : parse_data) : parse_data :=
  if got_url d >? 0 then set_got_url (int_wrap (got_url d + 1)) d else d.

Section WithApiKey.

(** [soundcloud_config.apikey] *)
Variable apikey : option string.

Definition handle_end_map (d : parse_data) : parse_data :=
  if got_url d >? 1 then set_got_url (got_url d - 1) d
  else if got_url d =? 0 then d
  else
    let d1 := set_got_url 0 d in
    let u := g_strconcat [stream_url d1; Some "?client_id="%string; apikey] in
    let t := mkTag (Z.quot (duration d1) 1000)
                   (match title d1 with
                    | Some name => [(TAG_NAME, name)]
                    | None => []
                    end) in
    emplace_front (mkSong u t) d1.

(** *** The decoder as seen by the callbacks *)

(** One constructor per slot of [yajl_callbacks]. *)
Inductive yajl_event :=
| yajl_null
| yajl_boolean (b : bool)
| yajl_integer (v : Z)
| yajl_double
| yajl_number (s : string)
| yajl_string (s : string)
| yajl_start_map
| yajl_map_key (s : string)
| yajl_end_map
| yajl_start_array
| yajl_end_array.

(** [parse_callbacks]: the slots holding NULL leave the state alone. *)
Definition parse_callbacks (e : yajl_event) (d : parse_data) : parse_data :=
  match e with
  | yajl_integer v => handle_integer v d
  | yajl_string s => handle_string s d
  | yajl_start_map => handle_start_map d
  | yajl_map_key s => handle_mapkey s d
  | yajl_end_map => handle_end_map d
  | _ => d
  end.

Definition deliver (es : list yajl_event) (d : parse_data) : parse_data :=
  fold_left (fun acc e => parse_callbacks e acc) es d.

Inductive yajl_status :=
| yajl_status_ok
| yajl_status_client_canceled
| yajl_status_insufficient_data
| yajl_status_error.

(** What one call of [yajl_parse] or [yajl_complete_parse] does: the
    callbacks it fires, in order, and the status it returns. *)
Record yajl_call := mkCall {
  fired : list yajl_event;
  status : yajl_status
}.

(** How the read loop ends when no decode error stops it first. *)
Inductive stream_end :=
| at_eof (complete : yajl_call)
| read_failed.

(** An opened input stream: the non-empty reads, each with what
    [yajl_parse] makes of the bytes, then the read that returns 0. *)
Record input_stream := mkStream {
  reads : list yajl_call;
  ending : stream_end
}.

(** [input_stream::Open(url, ...)]; [None] is the NULL result. *)
Definition transport := string -> option input_stream.

Variable HAVE_YAJL1 : bool.

(** The test [stat != yajl_status_ok (&& stat != insufficient_data)]. *)
Definition stat_is_error (s : yajl_status) : bool :=
  match s with
  | yajl_status_ok => false
  | yajl_status_insufficient_data => negb HAVE_YAJL1
  | _ => true
  end.

(** The [while (!done)] loop of [soundcloud_parse_json]. *)
Fixpoint read_loop (rs : list yajl_call) (fin : stream_end) (d : parse_data)
    : Z * parse_data :=
  match rs with
  | c :: rest =>
      let d' := deliver (fired c) d in
      if stat_is_error (status c) then (0, d') else read_loop rest fin d'
  | [] =>
      match fin with
      | read_failed => (-1, d)
      | at_eof c => (0, deliver (fired c) d)
      end
  end.

Definition soundcloud_parse_json (Open : transport) (url : string)
    (d : parse_data) : Z * parse_data :=
  match Open url with
  | None => (-1, d)
  | Some stream => read_loop (reads stream) (ending stream) d
  end.

(** [soundcloud_resolve] *)
Definition soundcloud_resolve (uri : string) : option string :=
  let u :=
    if g_str_has_prefix uri "http://" then Some uri
    else if g_str_has_prefix uri "soundcloud.com" then
      g_strconcat [Some "http://"%string; Some uri]
    else g_strconcat [Some "http://soundcloud.com/"%string; Some uri] in
  g_strconcat [Some "http://api.soundcloud.com/resolve.json?url="%string;
               u; Some "&client_id="%string; apikey].

(** First loop of [soundcloud_open_uri]: cut at the first "://". Without
    one, the scheme is the whole string and the remainder is empty. *)
Fixpoint cut_scheme (s : string) : string * string :=
  match s with
  | EmptyString => (EmptyString, EmptyString)
  | String c r =>
      if (Ascii.eqb c ":" && (peek r =? 47)
          && (peek (advance r) =? 47))%bool
      then (EmptyString, advance (advance r))
      else let '(a, b) := cut_scheme r in (String c a, b)
  end.

(** Second loop: cut at the first '/'. *)
Fixpoint cut_slash (s : string) : string * string :=
  match s with
  | EmptyString => (EmptyString, EmptyString)
  | String c r =>
      if Ascii.eqb c "/" then (EmptyString, r)
      else let '(a, b) := cut_slash r in (String c a, b)
  end.

(** The members of [struct parse_data data] that [soundcloud_open_uri]
    leaves uninitialised hold whatever the stack held. *)
Record stack_garbage := mkGarbage {
  garbage_key : Z;
  garbage_duration : Z
}.

Definition initial_data (g : stack_garbage) : parse_data :=
  mkData (garbage_key g) None (garbage_duration g) None 0 [].

(** [MemoryPlaylistProvider] *)
Definition playlist_provider := list Song.

Definition soundcloud_open_uri (Open : transport) (g : stack_garbage)
    (uri : string) : option playlist_provider :=
  let '(scheme, p) := cut_scheme uri in
  let '(arg, rest) := cut_slash p in
  if negb (streq scheme "soundcloud") then None
  else
    let u :=
      if streq arg "track" then
        g_strconcat [Some "http://api.soundcloud.com/tracks/"%string;
                     Some rest; Some ".json?client_id="%string; apikey]
      else if streq arg "playlist" then
        g_strconcat [Some "http://api.soundcloud.com/playlists/"%string;
                     Some rest; Some ".json?client_id="%string; apikey]
      else if streq arg "url" then soundcloud_resolve rest
      else None in
    match u with
    | None => None
    | Some url =>
        let '(ret, data) := soundcloud_parse_json Open url (initial_data g) in
        if ret =? -1 then None
        else Some (rev (songs data))
    end.

End WithApiKey.

(** What the callbacks see of a stream before the loop stops. *)
Fixpoint events_delivered (HAVE_YAJL1 : bool) (rs : list yajl_call)
    (fin : stream_end) : list yajl_event :=
  match rs with
  | c :: rest =>
      fired c ++ (if stat_is_error HAVE_YAJL1 (status c) then []
                  else events_delivered HAVE_YAJL1 rest fin)
  | [] =>
      match fin with
      | at_eof c => fired c
      | read_failed => []
      end
  end.

(** *** A reference reading of the extractor

    The record a closing track object stands for, and the records of a
    document in the order in which their objects close, each placed behind
    the earlier ones. *)

Definition record_of (apikey : option string) (d : parse_data) : Song :=
  mkSong (g_strconcat [stream_url d; Some "?client_id="%string; apikey])
         (mkTag (Z.quot (duration d) 1000)
                (match title d with
                 | Some name => [(TAG_NAME, name)]
                 | None => []
                 end)).

(** [handle_end_map] closes a record exactly when it passes both early
    returns. *)
Definition closes_record (d : parse_data) : bool :=
  negb (got_url d >? 1) && negb (got_url d =? 0).

Definition emitted_by (apikey : option string) (e : yajl_event)
    (d : parse_data) : list Song :=
  match e with
  | yajl_end_map => if closes_record d then [record_of apikey d] else []
  | _ => []
  end.

Fixpoint in_document_order (apikey : option string) (es : list yajl_event)
    (d : parse_data) : list Song :=
  match es with
  | [] => []
  | e :: rest =>
      emitted_by apikey e d
        ++ in_document_order apikey rest (parse_callbacks apikey e d)
  end.

(** A flat track object carrying all three fields. *)
Record track := mkTrack {
  track_duration : Z;
  track_title : string;
  track_stream_url : string
}.

Definition track_events (t : track) : list yajl_event :=
  [yajl_start_map;
   yajl_map_key "duration"; yajl_integer (track_duration t);
   yajl_map_key "title"; yajl_string (track_title t);
   yajl_map_key "stream_url"; yajl_string (track_stream_url t);
   yajl_end_map].

(** A JSON array of such objects. *)
Definition track_array_events (ts : list track) : list yajl_event :=
  yajl_start_array :: flat_map track_events ts ++ [yajl_end_array].

Definition c_str (s : string) : string := g_strndup s (String.length s).

Definition song_of_track (apikey : option string) (t : track) : Song :=
  mkSong (Some (concat_until_null
                  [Some (c_str (track_stream_url t));
                   Some "?client_id="%string; apikey]))
         (mkTag (Z.quot (track_duration t) 1000)
                [(TAG_NAME, c_str (track_title t))]).

Definition all_ok (rs : list yajl_call) : Prop :=
  Forall (fun c => status c = yajl_status_ok) rs.

(** *** Predicates on the parser state *)

(** An open record has its URL. *)
Definition url_known (d : parse_data) : Prop :=
  got_url d <> 0 -> stream_url d <> None.

(** Every record emitted so far has a URI. *)
Definition uris_set (d : parse_data) : Prop :=
  Forall (fun s => uri s <> None) (songs d).

(** Two states that are equal, or that differ at most in a [stream_url]
    no open record refers to. *)
Definition same_but_stale_url (a b : parse_data) : Prop :=
  a = b \/ (got_url b = 0 /\ a = set_stream_url (stream_url a) b).

(** *** Sample documents, as the decoder reports them *)

(** A transport serving one stream at every URL: the whole document in
    one read, then end of file. *)
Definition serve (doc : yajl_call) : transport :=
  fun _ => Some (mkStream [doc] (at_eof (mkCall [] yajl_status_ok))).

(** [[{"duration":5000,"stream_url":"http://a/1"},}]: the decoder reports
    a parse error at the stray brace. *)
Definition doc_broken_after_first : yajl_call :=
  mkCall [yajl_start_array; yajl_start_map;
          yajl_map_key "duration"; yajl_integer 5000;
          yajl_map_key "stream_url"; yajl_string "http://a/1";
          yajl_end_map]
         yajl_status_error.

(** [{"title":"A","stream_url":"http://a/1"}] *)
Definition obj_titled : list yajl_event :=
  [yajl_start_map; yajl_map_key "title"; yajl_string "A";
   yajl_map_key "stream_url"; yajl_string "http://a/1"; yajl_end_map].

(** [{"stream_url":"http://a/2"}] *)
Definition obj_bare : list yajl_event :=
  [yajl_start_map; yajl_map_key "stream_url"; yajl_string "http://a/2";
   yajl_end_map].

(** [[{"title":"A","stream_url":"http://a/1"},{"stream_url":"http://a/2"}]] *)
Definition doc_second_untitled : yajl_call :=
  mkCall (yajl_start_array :: obj_titled ++ obj_bare ++ [yajl_end_array])
         yajl_status_ok.

(** [[{"duration":5000,"stream_url":"http://a/1"},
     {"stream_url":"http://a/2"}]] *)
Definition doc_second_without_duration : yajl_call :=
  mkCall ([yajl_start_array; yajl_start_map;
           yajl_map_key "duration"; yajl_integer 5000;
           yajl_map_key "stream_url"; yajl_string "http://a/1";
           yajl_end_map] ++ obj_bare ++ [yajl_end_array])
         yajl_status_ok.

(** [{"stream_url":"http://a/2"}] alone *)
Definition doc_bare : yajl_call := mkCall obj_bare yajl_status_ok.

(** [{"t":"oops","d":7000,"stream_url":"http://a/1"}] *)
Definition doc_short_keys : yajl_call :=
  mkCall [yajl_start_map; yajl_map_key "t"; yajl_string "oops";
          yajl_map_key "d"; yajl_integer 7000;
          yajl_map_key "stream_url"; yajl_string "http://a/1"; yajl_end_map]
         yajl_status_ok.

(** *** Requests and documents in pieces *)

(** The URL [soundcloud_open_uri] builds for a URI: its first half, up to
    the test of [u]; [None] where it returns NULL before any request. *)
Definition request_url (apikey : option string) (uri : string)
    : option string :=
  let '(scheme, p) := cut_scheme uri in
  let '(arg, rest) := cut_slash p in
  if negb (streq scheme "soundcloud") then None
  else if streq arg "track" then
    g_strconcat [Some "http://api.soundcloud.com/tracks/"%string;
                 Some rest; Some ".json?client_id="%string; apikey]
  else if streq arg "playlist" then
    g_strconcat [Some "http://api.soundcloud.com/playlists/"%string;
                 Some rest; Some ".json?client_id="%string; apikey]
  else if streq arg "url" then soundcloud_resolve apikey rest
  else None.

(** No read of the stream makes the decoder report an error. *)
Definition no_decode_error (HAVE_YAJL1 : bool) (rs : list yajl_call) : Prop :=
  Forall (fun c => stat_is_error HAVE_YAJL1 (status c) = false) rs.

(** The read loop ends at a decode error or at end of file, not at a
    failed read. *)
Definition loop_finishes (HAVE_YAJL1 : bool) (stream : input_stream) : Prop :=
  Exists (fun c => stat_is_error HAVE_YAJL1 (status c) = true) (reads stream)
  \/ exists c, ending stream = at_eof c.

(** A document cut into consecutive pieces (one per track object, say,
    with whatever stands between them): the records each piece closes,
    piece by piece, the extractor carrying its state from one piece to
    the next. *)
Fixpoint records_by_piece (apikey : option string)
    (pieces : list (list yajl_event)) (d : parse_data) : list (list Song) :=
  match pieces with
  | [] => []
  | piece :: rest =>
      in_document_order apikey piece d
        :: records_by_piece apikey rest (deliver apikey piece d)
  end.

End SoundCloud.

(** ** The playlist plugin registry *)

Module Registry.

Import CStr.

(** What the registry takes from its collaborators: the input stream and
    everything else a plugin can touch form the world [W]; configuration
    blocks, the string helpers of util/ and GLib's scheme parser are used
    through their interfaces. *)
Class External := {
  W : Type;
  playlist_provider : Type;
  config_param : Type;
  (** a default-constructed [config_param] *)
  empty_param : config_param;
  (** [param->GetBlockValue(name)] *)
  GetBlockValue : config_param -> string -> option string;
  (** [param->GetBlockValue(name, default_value)] on booleans *)
  GetBlockValue_bool : config_param -> string -> bool -> bool;
  string_array_contains : list string -> string -> bool;
  g_uri_parse_scheme : string -> option string;
  uri_get_suffix : string -> option string;
  (** [is->LockWaitReady()] *)
  LockWaitReady : W -> W;
  (** [is->GetMimeType()] *)
  GetMimeType : W -> option string;
  (** [is->Seek(0, SEEK_SET, IgnoreError())] *)
  Seek : W -> W
}.

Section Model.

Context `{External}.

(** [struct playlist_plugin]; [None] is a NULL member. The registry
    reaches [init] and [finish] only through the wrappers of
    PlaylistPlugin.hxx, so these two members stand for what the wrappers
    do for the plugin. The [close] and [read] members are not used by the
    registry. *)
Record playlist_plugin := mkPlugin {
  name : string;
  init : config_param -> W -> bool * W;
  finish : W -> W;
  open_uri : option (string -> W -> option playlist_provider * W);
  open_stream : option (W -> option playlist_provider * W);
  schemes : option (list string);
  suffixes : option (list string);
  mime_types : option (list string)
}.

(** How a plugin was selected for a probe. *)
Inductive pass := by_scheme | by_suffix | by_mime.

(** The calls the registry makes, in the order it makes them. *)
Inductive call :=
| call_init (i : nat) (result : bool)
| call_finish (i : nat)
| call_open_uri (via : pass) (i : nat) (opened : bool)
| call_seek
| call_open_stream (via : pass) (i : nat) (opened : bool).

(** The call is a probe of some plugin made in pass [via]. *)
Definition probe_of (via : pass) (c : call) : Prop :=
  exists j ok, c = call_open_uri via j ok.

(** Modelled from the spec: the inline wrappers of PlaylistPlugin.hxx are
    missing. [playlist_plugin_init] calls the plugin's init with the
    configuration block and gives its boolean result. *)
Definition playlist_plugin_init (plugin : playlist_plugin)
    (param : config_param) (w : W) : bool * W :=
  init plugin param w.

(** Modelled from the spec: [playlist_plugin_finish] calls the plugin's
    finish. *)
Definition playlist_plugin_finish (plugin : playlist_plugin) (w : W) : W :=
  finish plugin w.

(** The plugin table without its NULL terminator, and the
    [CONF_PLAYLIST_PLUGIN] blocks in the order [config_get_next_param]
    walks them. *)
Variable playlist_plugins : list playlist_plugin.
Variable conf : list config_param.

(** [playlist_plugins_enabled[i]] *)
Definition flag (flags : list bool) (i : nat) : bool :=
  default false (flags !! i).

Inductive config_lookup :=
| fatal_error               (** [MPD_ERROR]: the process ends *)
| no_block
| block (param : config_param).

Fixpoint playlist_plugin_config_from (blocks : list config_param)
    (plugin_name : string) : config_lookup :=
  match blocks with
  | [] => no_block
  | param :: rest =>
      match GetBlockValue param "name" with
      | None => fatal_error
      | Some n =>
          if streq n plugin_name then block param
          else playlist_plugin_config_from rest plugin_name
      end
  end.

Definition playlist_plugin_config (plugin_name : string) : config_lookup :=
  playlist_plugin_config_from conf plugin_name.

(** The loop of [playlist_list_global_init] from slot [i] on. *)
Fixpoint global_init_from (i : nat) (ps : list playlist_plugin)
    (enabled : list bool) (w : W) : option (list bool * W * list call) :=
  match ps with
  | [] => Some (enabled, w, [])
  | plugin :: rest =>
      let run param :=
        let '(ok, w1) := playlist_plugin_init plugin param w in
        match global_init_from (S i) rest (<[i := ok]> enabled) w1 with
        | Some (en, w2, tr) => Some (en, w2, call_init i ok :: tr)
        | None => None
        end in
      match playlist_plugin_config (name plugin) with
      | fatal_error => None
      | no_block => run empty_param
      | block param =>
          if negb (GetBlockValue_bool param "enabled" true)
          then global_init_from (S i) rest enabled w
          else run param
      end
  end.

(** The array is static, so it starts zeroed; it has one slot more than
    there are plugins. *)
Definition playlist_plugins_enabled_initially : list bool :=
  replicate (S (length playlist_plugins)) false.

Definition playlist_list_global_init (w : W)
    : option (list bool * W * list call) :=
  global_init_from 0 playlist_plugins playlist_plugins_enabled_initially w.

Fixpoint global_finish_from (i : nat) (ps : list playlist_plugin)
    (enabled : list bool) (w : W) : W * list call :=
  match ps with
  | [] => (w, [])
  | plugin :: rest =>
      if flag enabled i then
        let '(w2, tr) :=
          global_finish_from (S i) rest enabled
            (playlist_plugin_finish plugin w) in
        (w2, call_finish i :: tr)
      else global_finish_from (S i) rest enabled w
  end.

Definition playlist_list_global_finish (enabled : list bool) (w : W)
    : W * list call :=
  global_finish_from 0 playlist_plugins enabled w.

(** *** Resolution *)

(** [playlist_plugins_enabled] as left by initialisation. *)
Variable playlist_plugins_enabled : list bool.

(** The shared shape of the matching conditions: the slot is usable, the
    entry point and the name array are not NULL, and the array contains
    the needle. Gives the entry point that [playlist_plugin_open_uri] or
    [playlist_plugin_open_stream] then calls. *)
Definition eligible {F : Type} (usable : bool) (entry : option F)
    (names : option (list string)) (needle : string) : option F :=
  match usable, entry, names with
  | true, Some f, Some l =>
      if string_array_contains l needle then Some f else None
  | _, _, _ => None
  end.

(** The loop of [playlist_list_open_uri_scheme]. *)
Fixpoint open_uri_scheme_from (i : nat) (ps : list playlist_plugin)
    (uri scheme : string) (tried : list bool) (w : W)
    : option playlist_provider * list bool * W * list call :=
  match ps with
  | [] => (None, tried, w, [])
  | plugin :: rest =>
      match eligible (flag playlist_plugins_enabled i) (open_uri plugin)
              (schemes plugin) scheme with
      | Some f =>
          match f uri w with
          | (Some playlist, w1) =>
              (Some playlist, tried, w1, [call_open_uri by_scheme i true])
          | (None, w1) =>
              let '(r, t, w2, tr) :=
                open_uri_scheme_from (S i) rest uri scheme
                  (<[i := true]> tried) w1 in
              (r, t, w2, call_open_uri by_scheme i false :: tr)
          end
      | None => open_uri_scheme_from (S i) rest uri scheme tried w
      end
  end.

Definition playlist_list_open_uri_scheme (uri : string) (tried : list bool)
    (w : W) : option playlist_provider * list bool * W * list call :=
  match g_uri_parse_scheme uri with
  | None => (None, tried, w, [])
  | Some scheme => open_uri_scheme_from 0 playlist_plugins uri scheme tried w
  end.

(** The loop of [playlist_list_open_uri_suffix]. *)
Fixpoint open_uri_suffix_from (i : nat) (ps : list playlist_plugin)
    (uri suffix : string) (tried : list bool) (w : W)
    : option playlist_provider * W * list call :=
  match ps with
  | [] => (None, w, [])
  | plugin :: rest =>
      match eligible (flag playlist_plugins_enabled i && negb (flag tried i))
              (open_uri plugin) (suffixes plugin) suffix with
      | Some f =>
          match f uri w with
          | (Some playlist, w1) =>
              (Some playlist, w1, [call_open_uri by_suffix i true])
          | (None, w1) =>
              let '(r, w2, tr) :=
                open_uri_suffix_from (S i) rest uri suffix tried w1 in
              (r, w2, call_open_uri by_suffix i false :: tr)
          end
      | None => open_uri_suffix_from (S i) rest uri suffix tried w
      end
  end.

Definition playlist_list_open_uri_suffix (uri : string) (tried : list bool)
    (w : W) : option playlist_provider * W * list call :=
  match uri_get_suffix uri with
  | None => (None, w, [])
  | Some suffix => open_uri_suffix_from 0 playlist_plugins uri suffix tried w
  end.

Definition playlist_list_open_uri (uri : string) (w : W)
    : option playlist_provider * W * list call :=
  let tried := replicate (length playlist_plugins) false in
  let '(playlist, tried1, w1, tr1) :=
    playlist_list_open_uri_scheme uri tried w in
  match playlist with
  | Some _ => (playlist, w1, tr1)
  | None =>
      let '(playlist2, w2, tr2) :=
        playlist_list_open_uri_suffix uri tried1 w1 in
      (playlist2, w2, tr1 ++ tr2)
  end.

(** The loop shared, word for word, by
    [playlist_list_open_stream_mime2] and
    [playlist_list_open_stream_suffix]: [names] picks [mime_types] or
    [suffixes]. *)
Fixpoint open_stream_from (via : pass)
    (names : playlist_plugin -> option (list string))
    (i : nat) (ps : list playlist_plugin) (needle : string) (w : W)
    : option playlist_provider * W * list call :=
  match ps with
  | [] => (None, w, [])
  | plugin :: rest =>
      match eligible (flag playlist_plugins_enabled i) (open_stream plugin)
              (names plugin) needle with
      | Some f =>
          match f (Seek w) with
          | (Some playlist, w1) =>
              (Some playlist, w1, [call_seek; call_open_stream via i true])
          | (None, w1) =>
              let '(r, w2, tr) :=
                open_stream_from via names (S i) rest needle w1 in
              (r, w2, call_seek :: call_open_stream via i false :: tr)
          end
      | None => open_stream_from via names (S i) rest needle w
      end
  end.

Definition playlist_list_open_stream_mime2 (w : W) (mime : string)
    : option playlist_provider * W * list call :=
  open_stream_from by_mime mime_types 0 playlist_plugins mime w.

Definition playlist_list_open_stream_mime (w : W) (full_mime : string)
    : option playlist_provider * W * list call :=
  match strchr full_mime ";" with
  | None => playlist_list_open_stream_mime2 w full_mime
  | Some O => (None, w, [])
  | Some semicolon =>
      playlist_list_open_stream_mime2 w (g_strndup full_mime semicolon)
  end.

Definition playlist_list_open_stream_suffix (w : W) (suffix : string)
    : option playlist_provider * W * list call :=
  open_stream_from by_suffix suffixes 0 playlist_plugins suffix w.

Definition playlist_list_open_stream (w : W) (uri : option string)
    : option playlist_provider * W * list call :=
  let w0 := LockWaitReady w in
  let '(playlist, w1, tr1) :=
    match GetMimeType w0 with
    | Some mime => playlist_list_open_stream_mime w0 mime
    | None => (None, w0, [])
    end in
  match playlist with
  | Some _ => (playlist, w1, tr1)
  | None =>
      match uri ≫= uri_get_suffix with
      | Some suffix =>
          let '(playlist2, w2, tr2) :=
            playlist_list_open_stream_suffix w1 suffix in
          (playlist2, w2, tr1 ++ tr2)
      | None => (None, w1, tr1)
      end
  end.

(** [playlist_suffix_supported] *)
Definition playlist_suffix_supported (suffix : string) : bool :=
  existsb
    (fun '(i, plugin) =>
       flag playlist_plugins_enabled i
       && match suffixes plugin with
          | Some l => string_array_contains l suffix
          | None => false
          end)
    (imap pair playlist_plugins).

End Model.

(** *** A reference reading of MIME trimming

    [usable_mime full m]: the MIME type [full] is matched as [m]; either
    it has no parameter segment, or [m] is the non-empty part before its
    first semicolon. *)
Inductive usable_mime : string -> string -> Prop :=
| mime_plain m :
    strchr m ";" = None -> usable_mime m m
| mime_with_parameters m rest :
    m <> EmptyString -> strchr m ";" = None -> strchr m zero = None ->
    usable_mime (m ++ String ";" rest) m.

(** *** Reading the lifecycle off the world *)

Section Lifecycle.

Context `{External}.

(** The world after the finish of the plugins in the slots [slots] has
    run, slot after slot. *)
Definition finished_in_order (ps : list playlist_plugin) (slots : list nat)
    (w : W) : W :=
  fold_left (fun w0 i =>
               match ps !! i with
               | Some plugin => playlist_plugin_finish plugin w0
               | None => w0
               end)
            slots w.

(** The same plugin with another init function. *)
Definition with_init (f : config_param -> W -> bool * W)
    (plugin : playlist_plugin) : playlist_plugin :=
  mkPlugin (name plugin) f (finish plugin) (open_uri plugin)
    (open_stream plugin) (schemes plugin) (suffixes plugin)
    (mime_types plugin).

(** The block handed to a plugin's init: its own, or an empty one. *)
Definition init_param (lookup : config_lookup) (param : config_param) : Prop :=
  (lookup = no_block /\ param = empty_param) \/ lookup = block param.

End Lifecycle.

End Registry.

(** ** A sample installation

    A world with one input stream and the SoundCloud API key, four
    plugins and a configuration file, on which the registry can be run. *)

Module Sample.

Import CStr Registry.

Record world := mkWorld {
  stream_mime : option string;
  stream_offset : nat;
  soundcloud_apikey : option string
}.

Definition block_value (param : list (string * string)) (k : string)
    : option string :=
  snd <$> List.find (fun kv => String.eqb (fst kv) k) param.

Definition block_bool (param : list (string * string)) (k : string)
    (default_value : bool) : bool :=
  match block_value param k with
  | Some v => if String.eqb v "no" then false
              else if String.eqb v "yes" then true
              else default_value
  | None => default_value
  end.

(** The text before the first colon. *)
Definition scheme_of (uri : string) : option string :=
  (fun n => substring 0 n uri) <$> strchr uri ":".

(** The text after the last dot. *)
Fixpoint suffix_of (uri : string) : option string :=
  match uri with
  | EmptyString => None
  | String c r =>
      match suffix_of r with
      | Some x => Some x
      | None => if Ascii.eqb c "." then Some r else None
      end
  end.

Definition installation : External := {|
  W := world;
  playlist_provider := SoundCloud.playlist_provider;
  config_param := list (string * string);
  empty_param := [];
  GetBlockValue := block_value;
  GetBlockValue_bool := block_bool;
  string_array_contains := fun l s => existsb (String.eqb s) l;
  g_uri_parse_scheme := scheme_of;
  uri_get_suffix := suffix_of;
  LockWaitReady := fun w => w;
  GetMimeType := stream_mime;
  Seek := fun w => mkWorld (stream_mime w) 0 (soundcloud_apikey w)
|}.

Definition plugin := @playlist_plugin installation.

(** A stream plugin that reads 16 bytes and yields one song. *)
Definition reads_stream (what : string) (w : world)
    : option SoundCloud.playlist_provider * world :=
  (Some [SoundCloud.mkSong (Some what) (SoundCloud.mkTag 0 [])],
   mkWorld (stream_mime w) (stream_offset w + 16) (soundcloud_apikey w)).

(** A plugin with nothing to set up or tear down. *)
Definition no_init (_ : list (string * string)) (w : world) : bool * world :=
  (true, w).
Definition no_finish (w : world) : world := w.

Definition xspf_plugin : plugin :=
  @mkPlugin installation "xspf" no_init no_finish None
    (Some (reads_stream "from xspf"))
    None (Some ["xspf"%string])
    (Some ["application/xspf+xml"%string; "text/xml"%string]).

Definition m3u_plugin : plugin :=
  @mkPlugin installation "m3u" no_init no_finish None
    (Some (reads_stream "from m3u"))
    None (Some ["m3u"%string]) (Some ["audio/x-mpegurl"%string]).

(** [soundcloud_init] *)
Definition soundcloud_init (param : list (string * string)) (w : world)
    : bool * world :=
  let apikey := block_value param "apikey" in
  (match apikey with Some _ => true | None => false end,
   mkWorld (stream_mime w) (stream_offset w) apikey).

(** [soundcloud_finish] frees the key. *)
Definition soundcloud_finish (w : world) : world := w.

(** No SoundCloud URL can be opened. *)
Definition offline : SoundCloud.transport := fun _ => None.

(** [soundcloud_playlist_plugin] *)
Definition soundcloud_playlist_plugin : plugin :=
  @mkPlugin installation "soundcloud" soundcloud_init soundcloud_finish
    (Some (fun uri w =>
             (SoundCloud.soundcloud_open_uri (soundcloud_apikey w) false
                offline (SoundCloud.mkGarbage 0 0) uri, w)))
    None (Some ["soundcloud"%string]) None None.

(** A plugin claiming both a scheme and a suffix, whose open fails. *)
Definition feed_plugin : plugin :=
  @mkPlugin installation "feed" no_init no_finish
    (Some (fun _ w => (None, w))) None
    (Some ["http"%string]) (Some ["xml"%string]) None.

Definition plugins : list plugin :=
  [xspf_plugin; m3u_plugin; soundcloud_playlist_plugin; feed_plugin].

(** m3u is switched off; the soundcloud block has no apikey. *)
Definition mpd_conf : list (list (string * string)) :=
  [[("name", "m3u"); ("enabled", "no")]; [("name", "soundcloud")]]%string.

Definition all_enabled : list bool := [true; true; true; true; false].

Definition idle : world := mkWorld None 0 None.

Definition xml_stream : world :=
  mkWorld (Some "text/xml; charset=utf-8"%string) 40 None.

End Sample.

(** A world that keeps a journal of the plugins that were finished, and
    plugins that write to it. *)
Module SampleJournal.

Import Registry Sample.

(** The journal is the decimal number in [stream_offset]; finishing
    plugin number [k] appends the digit [k]. *)
Definition signs_off (k : nat) (w : world) : world :=
  mkWorld (stream_mime w) (10 * stream_offset w + k) (soundcloud_apikey w).

Definition refuses (_ : list (string * string)) (w : world) : bool * world :=
  (false, w).

Definition journal_plugins : list plugin :=
  [@mkPlugin installation "xspf" no_init (signs_off 1) None None None
     None None;
   @mkPlugin installation "m3u" no_init (signs_off 2) None None None
     None None;
   @mkPlugin installation "soundcloud" refuses (signs_off 3) None None None
     None None;
   @mkPlugin installation "feed" no_init (signs_off 4) None None None
     None None].

End SampleJournal.

(** ** Shapes of event sequences *)

Module Events.

Import CStr SoundCloud.
Local Open Scope Z_scope.

Definition is_map_bracket (e : yajl_event) : bool :=
  match e with
  | yajl_start_map | yajl_end_map => true
  | _ => false
  end.

Definition is_string (e : yajl_event) : bool :=
  match e with
  | yajl_string _ => true
  | _ => false
  end.

Definition is_end_map (e : yajl_event) : bool :=
  match e with
  | yajl_end_map => true
  | _ => false
  end.

(** The event is a map key that [handle_mapkey] takes for [stream_url]. *)
Definition names_url (e : yajl_event) : bool :=
  match e with
  | yajl_map_key k => mapkey_loop k key_str 0 =? Stream_URL
  | _ => false
  end.

Definition no_url_key (es : list yajl_event) : Prop :=
  Forall (fun e => names_url e = false) es.

(** The members of an object begin with a key, if there are any. *)
Definition starts_with_key (es : list yajl_event) : Prop :=
  match es with
  | [] => True
  | yajl_map_key _ :: _ => True
  | _ => False
  end.

(** Event sequences in which every object that opens also closes. *)
Inductive balanced : list yajl_event -> Prop :=
| balanced_nil : balanced []
| balanced_leaf e es :
    is_map_bracket e = false -> balanced es -> balanced (e :: es)
| balanced_map inner es :
    balanced inner -> balanced es ->
    balanced (yajl_start_map :: inner ++ yajl_end_map :: es).

(** Where every request of the plugin goes. *)
Definition api_host : string := "http://api.soundcloud.com/".

(** The field a key selects when keys match by prefix. *)
Definition field_by_prefix (k : string) : Z :=
  if String.prefix k "duration" then Duration
  else if String.prefix k "title" then Title
  else if String.prefix k "stream_url" then Stream_URL
  else Other.

(** Whether [got_url] marks an open record. *)
Definition open_records (d : parse_data) : nat :=
  if got_url d =? 0 then 0%nat else 1%nat.

(** The decode error test of the read loop, on a whole stream. *)
Definition decode_error_in (HAVE_YAJL1 : bool) (stream : input_stream)
    : Prop :=
  Exists (fun c => stat_is_error HAVE_YAJL1 (status c) = true) (reads stream).

End Events.

(** ** Opening a local path, and shapes of call traces *)

Module Paths.

Import CStr Registry.

Section Model.

Context `{External}.

(** [input_stream::Open(path_fs, ...)]: whether a stream was opened, and
    the world after the attempt; [is->Close()]. *)
Variable input_stream_Open : string -> W -> bool * W.
Variable Close : W -> W.

Variable playlist_plugins : list playlist_plugin.
Variable playlist_plugins_enabled : list bool.

(** What [playlist_list_open_path] does, in order. *)
Inductive path_call :=
| path_open (opened : bool)
| path_registry (c : call)
| path_close.

(** [playlist_list_open_path]; the stream handed back through [is_r] is
    the one of the returned world. *)
Definition playlist_list_open_path (path_fs : string) (w : W)
    : option playlist_provider * W * list path_call :=
  match uri_get_suffix path_fs with
  | None => (None, w, [])
  | Some suffix =>
      if negb (playlist_suffix_supported playlist_plugins
                 playlist_plugins_enabled suffix)
      then (None, w, [])
      else
        match input_stream_Open path_fs w with
        | (false, w1) => (None, w1, [path_open false])
        | (true, w1) =>
            let '(playlist, w3, tr) :=
              playlist_list_open_stream_suffix playlist_plugins
                playlist_plugins_enabled (LockWaitReady w1) suffix in
            match playlist with
            | Some _ =>
                (playlist, w3, path_open true :: map path_registry tr)
            | None =>
                (None, Close w3,
                 path_open true :: map path_registry tr ++ [path_close])
            end
        end
  end.

(** *** Shapes of traces *)

(** The calls of a pass that probed the slots [probes], each with its
    outcome. *)
Definition uri_probes (via : pass) (probes : list (nat * bool)) : list call :=
  map (fun p => call_open_uri via (fst p) (snd p)) probes.

Definition stream_probes (via : pass) (probes : list (nat * bool))
    : list call :=
  flat_map (fun p => [call_seek; call_open_stream via (fst p) (snd p)]) probes.

(** Slot numbers going up, starting at [lo] or later. *)
Fixpoint ascending (lo : nat) (l : list nat) : Prop :=
  match l with
  | [] => True
  | j :: rest => lo <= j /\ ascending (S j) rest
  end.

(** Outcomes of a run of probes that stops at the first success: all
    failures, then the success if there was one. *)
Definition first_success (found : bool) (oks : list bool) : Prop :=
  exists k, oks = replicate k false ++ (if found then [true] else []).

Definition found {A : Type} (r : option A) : bool :=
  match r with Some _ => true | None => false end.

(** Slot [j] holds an enabled plugin that has the entry point and lists
    the needle. *)
Definition probed_plugin {F : Type} (entry : playlist_plugin -> option F)
    (names : playlist_plugin -> option (list string)) (needle : string)
    (j : nat) : Prop :=
  flag playlist_plugins_enabled j = true
  /\ exists plugin f l,
       playlist_plugins !! j = Some plugin
       /\ entry plugin = Some f
       /\ names plugin = Some l
       /\ string_array_contains l needle = true.

(** No plugin is eligible for the needle. *)
Definition none_eligible {F : Type} (entry : playlist_plugin -> option F)
    (names : playlist_plugin -> option (list string)) (needle : string)
    : Prop :=
  forall j plugin,
    playlist_plugins !! j = Some plugin ->
    eligible (flag playlist_plugins_enabled j) (entry plugin) (names plugin)
      needle = None.

(** Every configuration block has a name. *)
Definition all_named (conf : list config_param) : Prop :=
  Forall (fun param => GetBlockValue param "name" <> None) conf.

(** The block is named, and not [plugin_name]. *)
Definition names_other (plugin_name : string) (param : config_param) : Prop :=
  exists n, GetBlockValue param "name" = Some n /\ streq n plugin_name = false.

(** The init calls of the slots [results], each with what it returned. *)
Definition init_calls (results : list (nat * bool)) : list call :=
  map (fun p => call_init (fst p) (snd p)) results.

End Model.


End Paths.

(** ** The 24 bit sample check of test/test_pcm_pack.cxx *)

Module PcmPackTest.

Local Open Scope Z_scope.

(** The value [TestPack24] and [TestUnpack24] rebuild from three
    consecutive bytes [b0], [b1], [b2] of the packed buffer: an
    [int32_t], sign-extended from bit 23 by or-ing in [0xff000000]. *)
Definition rebuilt_sample (IsBigEndian : bool) (b0 b1 b2 : Z) : Z :=
  let d :=
    if IsBigEndian
    then Z.lor (Z.lor (Z.shiftl b0 16) (Z.shiftl b1 8)) b2
    else Z.lor (Z.lor (Z.shiftl b2 16) (Z.shiftl b1 8)) b0 in
  if Z.land d 8388608 =? 0 then d
  else SoundCloud.int_wrap (Z.lor d 4278190080).

Definition is_byte (b : Z) : Prop := 0 <= b < 256.

End PcmPackTest.

(** A file system for the sample installation: everything under /music/
    can be opened. *)
Module SampleFiles.

Import Registry Sample.

Definition open_file (path_fs : string) (w : world) : bool * world :=
  (String.prefix "/music/" path_fs, w).

Definition close_file (w : world) : world :=
  mkWorld None 0 (soundcloud_apikey w).

(** A plugin that lists a suffix but can only open URIs. *)
Definition uri_only_plugin : plugin :=
  @mkPlugin installation "remote" no_init no_finish
    (Some (fun _ w => (None, w))) None
    None (Some ["rpl"%string]) None.

(** A plugin that opens every URI of its scheme. *)
Definition radio_plugin : plugin :=
  @mkPlugin installation "radio" no_init no_finish
    (Some (fun uri w =>
             (Some [SoundCloud.mkSong (Some uri) (SoundCloud.mkTag 0 [])], w)))
    None (Some ["radio"%string]) None None.

Definition more_plugins : list plugin :=
  [xspf_plugin; uri_only_plugin; radio_plugin].

Definition more_enabled : list bool := [true; true; true; false].

(** A block for a plugin that is not in the table. *)
Definition stray_block : list (string * string) :=
  [("name", "oggplaylist"); ("enabled", "yes")]%string.

End SampleFiles.

(** ** Facts about the SoundCloud extractor *)

Import CStr SoundCloud.

Section SoundCloudFacts.

Local Open Scope Z_scope.

Variable apikey : option string.
Variable HAVE_YAJL1 : bool.

Lemma deliver_app es1 es2 d :
  deliver apikey (es1 ++ es2) d = deliver apikey es2 (deliver apikey es1 d).
Proof. unfold deliver. apply fold_left_app. Qed.

Lemma read_loop_state rs fin d :
  snd (read_loop apikey HAVE_YAJL1 rs fin d)
  = deliver apikey (events_delivered HAVE_YAJL1 rs fin) d.
Proof.
  revert d. induction rs as [|c rest IH]; intros d; simpl.
  - destruct fin; reflexivity.
  - rewrite deliver_app.
    destruct (stat_is_error HAVE_YAJL1 (status c)); simpl; [reflexivity|].
    apply IH.
Qed.

(** [soundcloud_parse_json] returns -1 only when a read fails. *)
Lemma read_loop_ret rs fin d :
  fst (read_loop apikey HAVE_YAJL1 rs fin d) = -1
  <-> Forall (fun c => stat_is_error HAVE_YAJL1 (status c) = false) rs
      /\ fin = read_failed.
Proof.
  revert d. induction rs as [|c rest IH]; intros d; simpl.
  - destruct fin; simpl; split.
    + discriminate.
    + intros [_ H]. discriminate.
    + intros _. split; [constructor | reflexivity].
    + reflexivity.
  - destruct (stat_is_error HAVE_YAJL1 (status c)) eqn:E; simpl.
    + split; [discriminate|]. intros [H _]. inversion H; congruence.
    + rewrite IH. split; intros [H1 H2]; split; auto.
      inversion H1; assumption.
Qed.

Lemma songs_callback e d :
  songs (parse_callbacks apikey e d) = rev (emitted_by apikey e d) ++ songs d.
Proof.
  destruct e; simpl; try reflexivity.
  - unfold handle_integer. destruct (key d =? Duration); reflexivity.
  - unfold handle_string.
    destruct (key d =? Title); [reflexivity|].
    destruct (key d =? Stream_URL); reflexivity.
  - unfold handle_start_map. destruct (got_url d >? 0); reflexivity.
  - unfold handle_end_map, closes_record.
    destruct (got_url d >? 1); [reflexivity|].
    destruct (got_url d =? 0); reflexivity.
Qed.

Lemma songs_deliver es d :
  songs (deliver apikey es d) = rev (in_document_order apikey es d) ++ songs d.
Proof.
  revert d. induction es as [|e rest IH]; intros d; [reflexivity|].
  change (deliver apikey (e :: rest) d)
    with (deliver apikey rest (parse_callbacks apikey e d)).
  rewrite IH, songs_callback. simpl.
  rewrite rev_app_distr, <- app_assoc. reflexivity.
Qed.

Lemma mapkey_exact_names :
  mapkey_loop "duration" key_str 0 = Duration
  /\ mapkey_loop "title" key_str 0 = Title
  /\ mapkey_loop "stream_url" key_str 0 = Stream_URL.
Proof. repeat split. Qed.

Lemma deliver_track t d :
  got_url d = 0 ->
  deliver apikey (track_events t) d
  = mkData Stream_URL (Some (c_str (track_stream_url t))) (track_duration t)
           (Some (c_str (track_title t))) 0
           (song_of_track apikey t :: songs d).
Proof.
  intros H. destruct d as [k u dur ti g ss]. simpl in H. subst g.
  reflexivity.
Qed.

Lemma deliver_tracks ts d :
  got_url d = 0 ->
  got_url (deliver apikey (flat_map track_events ts) d) = 0
  /\ songs (deliver apikey (flat_map track_events ts) d)
     = rev (map (song_of_track apikey) ts) ++ songs d.
Proof.
  revert d. induction ts as [|t rest IH]; intros d H.
  - split; [exact H | reflexivity].
  - cbn [flat_map]. rewrite deliver_app, (deliver_track t d H).
    match goal with
    | |- context [deliver apikey _ ?d0] =>
        destruct (IH d0 eq_refl) as [G S]
    end.
    split; [exact G|].
    rewrite S. cbn [map rev songs]. rewrite <- app_assoc. reflexivity.
Qed.

Lemma events_delivered_clean rs c :
  no_decode_error HAVE_YAJL1 rs ->
  events_delivered HAVE_YAJL1 rs (at_eof c) = concat (map fired rs) ++ fired c.
Proof.
  induction 1 as [|x rest Hx _ IH]; simpl; [reflexivity|].
  rewrite Hx, IH, app_assoc. reflexivity.
Qed.

Lemma events_delivered_all_ok rs c :
  all_ok rs ->
  events_delivered HAVE_YAJL1 rs (at_eof c) = concat (map fired rs) ++ fired c.
Proof.
  induction 1 as [|x rest Hx _ IH]; simpl; [reflexivity|].
  rewrite Hx. simpl. rewrite IH, app_assoc. reflexivity.
Qed.

(** Whatever the stream, a provider that is returned lists the records in
    the order in which their objects closed. *)
Lemma provider_is_document_order Open g uri p :
  soundcloud_open_uri apikey HAVE_YAJL1 Open g uri = Some p ->
  exists url stream,
    Open url = Some stream
    /\ p = in_document_order apikey
             (events_delivered HAVE_YAJL1 (reads stream) (ending stream))
             (initial_data g).
Proof.
  unfold soundcloud_open_uri.
  destruct (cut_scheme uri) as [scheme q].
  destruct (cut_slash q) as [arg rest].
  destruct (negb (streq scheme "soundcloud")); [discriminate|].
  match goal with
  | |- context [match ?u with Some _ => _ | None => _ end] =>
      destruct u as [url|]; [|discriminate]
  end.
  unfold soundcloud_parse_json.
  destruct (Open url) as [stream|] eqn:HO; [|simpl; discriminate].
  destruct (read_loop apikey HAVE_YAJL1 (reads stream) (ending stream)
              (initial_data g)) as [ret data] eqn:HR.
  destruct (ret =? -1); [discriminate|].
  intros H. injection H as <-.
  exists url, stream. split; [exact HO|].
  pose proof (read_loop_state (reads stream) (ending stream) (initial_data g))
    as HS.
  rewrite HR in HS. simpl in HS. rewrite HS, songs_deliver. simpl.
  rewrite app_nil_r. apply rev_involutive.
Qed.

Lemma open_uri_playlist Open g id :
  soundcloud_open_uri apikey HAVE_YAJL1 Open g ("soundcloud://playlist/" ++ id)
  = let '(ret, data) :=
      soundcloud_parse_json apikey HAVE_YAJL1 Open
        (concat_until_null
           [Some "http://api.soundcloud.com/playlists/"%string; Some id;
            Some ".json?client_id="%string; apikey])
        (initial_data g) in
    if ret =? -1 then None else Some (rev (songs data)).
Proof. reflexivity. Qed.

Lemma deliver_track_array ts d :
  got_url d = 0 ->
  songs (deliver apikey (track_array_events ts) d)
  = rev (map (song_of_track apikey) ts) ++ songs d.
Proof.
  intros G. unfold track_array_events.
  change (deliver apikey (yajl_start_array :: ?l) ?d0)
    with (deliver apikey l d0).
  rewrite deliver_app.
  destruct (deliver_tracks ts d G) as [_ S].
  change (deliver apikey [yajl_end_array] ?d0) with d0.
  exact S.
Qed.

(** For an array of tracks, the records in closing order are the tracks
    in document order. *)
Lemma track_array_document_order ts g :
  in_document_order apikey (track_array_events ts) (initial_data g)
  = map (song_of_track apikey) ts.
Proof.
  pose proof (songs_deliver (track_array_events ts) (initial_data g)) as A.
  rewrite (deliver_track_array ts (initial_data g) eq_refl) in A.
  simpl in A. rewrite !app_nil_r in A.
  apply (f_equal (@rev Song)) in A. rewrite !rev_involutive in A.
  symmetry. exact A.
Qed.

Lemma open_uri_request Open g uri :
  soundcloud_open_uri apikey HAVE_YAJL1 Open g uri
  = match request_url apikey uri with
    | None => None
    | Some url =>
        let '(ret, data) :=
          soundcloud_parse_json apikey HAVE_YAJL1 Open url (initial_data g) in
        if ret =? -1 then None else Some (rev (songs data))
    end.
Proof.
  unfold soundcloud_open_uri, request_url.
  destruct (cut_scheme uri) as [scheme q].
  destruct (cut_slash q) as [arg rest].
  destruct (negb (streq scheme "soundcloud")); [reflexivity|].
  destruct (streq arg "track"); [reflexivity|].
  destruct (streq arg "playlist"); [reflexivity|].
  destruct (streq arg "url"); reflexivity.
Qed.

Lemma in_document_order_app es1 es2 d :
  in_document_order apikey (es1 ++ es2) d
  = in_document_order apikey es1 d
    ++ in_document_order apikey es2 (deliver apikey es1 d).
Proof.
  revert d. induction es1 as [|e rest IH]; intros d; [reflexivity|].
  cbn [app in_document_order]. rewrite IH, <- app_assoc. reflexivity.
Qed.

Lemma in_document_order_pieces pieces : forall d,
  in_document_order apikey (concat pieces) d
  = concat (records_by_piece apikey pieces d).
Proof.
  induction pieces as [|piece rest IH]; intros d; [reflexivity|].
  cbn [concat records_by_piece].
  rewrite in_document_order_app, IH. reflexivity.
Qed.

(** C8: for every URI that leads to a request, every stream that opens
    and every way its reads go short of a failed read, the provider
    returned by [soundcloud_open_uri] lists the extracted records in the
    order of the document: however the document is cut into consecutive
    pieces (one per track object, say), it is the records of the first
    piece, then those of the second, and so on; for a JSON array of
    track objects it is the tracks, first in the document first out. The
    list built by prepending is reversed once. *)
Theorem provider_in_source_order Open g uri url stream :
  request_url apikey uri = Some url ->
  Open url = Some stream ->
  loop_finishes HAVE_YAJL1 stream ->
  soundcloud_open_uri apikey HAVE_YAJL1 Open g uri
  = Some (in_document_order apikey
            (events_delivered HAVE_YAJL1 (reads stream) (ending stream))
            (initial_data g))
  /\ (forall pieces,
        concat pieces
        = events_delivered HAVE_YAJL1 (reads stream) (ending stream) ->
        soundcloud_open_uri apikey HAVE_YAJL1 Open g uri
        = Some (concat (records_by_piece apikey pieces (initial_data g))))
  /\ (forall ts,
        events_delivered HAVE_YAJL1 (reads stream) (ending stream)
        = track_array_events ts ->
        soundcloud_open_uri apikey HAVE_YAJL1 Open g uri
        = Some (map (song_of_track apikey) ts)).
Proof.
  intros HU HO HF.
  assert (R : soundcloud_open_uri apikey HAVE_YAJL1 Open g uri
              = Some (in_document_order apikey
                        (events_delivered HAVE_YAJL1 (reads stream)
                           (ending stream))
                        (initial_data g))).
  { rewrite open_uri_request, HU. unfold soundcloud_parse_json. rewrite HO.
    pose proof (read_loop_state (reads stream) (ending stream)
                  (initial_data g)) as HS.
    pose proof (read_loop_ret (reads stream) (ending stream)
                  (initial_data g)) as HR.
    destruct (read_loop apikey HAVE_YAJL1 (reads stream) (ending stream)
                (initial_data g)) as [ret data].
    simpl in HS, HR.
    destruct (Z.eqb_spec ret (-1)) as [E|_].
    - exfalso. apply HR in E. destruct E as [Clean Failed].
      destruct HF as [Err|[c Eof]]; [|congruence].
      apply List.Exists_exists in Err. destruct Err as (c & Hin & Hc).
      rewrite List.Forall_forall in Clean. rewrite (Clean c Hin) in Hc.
      discriminate.
    - rewrite HS, songs_deliver. simpl. rewrite app_nil_r, rev_involutive.
      reflexivity. }
  split; [exact R|]. split.
  - intros pieces E. rewrite R, <- E, in_document_order_pieces. reflexivity.
  - intros ts E. rewrite R, E, track_array_document_order. reflexivity.
Qed.


(** *** The URL is known whenever a record is open *)

Lemma url_known_callback e d :
  url_known d /\ uris_set d ->
  url_known (parse_callbacks apikey e d) /\ uris_set (parse_callbacks apikey e d).
Proof.
  unfold url_known, uris_set. intros [K U].
  destruct e; simpl; try (split; assumption).
  - unfold handle_integer. destruct (key d =? Duration); split; assumption.
  - unfold handle_string.
    destruct (key d =? Title); [split; assumption|].
    destruct (key d =? Stream_URL); simpl; [|split; assumption].
    split; [discriminate | assumption].
  - unfold handle_start_map.
    destruct (Z.gtb_spec (got_url d) 0) as [G|G]; simpl; [|split; assumption].
    split; [|assumption]. intros _. apply K. lia.
  - unfold handle_end_map.
    destruct (Z.gtb_spec (got_url d) 1) as [G|G]; simpl.
    + split; [|assumption]. intros _. apply K. lia.
    + destruct (Z.eqb_spec (got_url d) 0) as [E|E]; simpl.
      * split; assumption.
      * split; [intros C; contradiction C; reflexivity|].
        constructor; [|assumption]. simpl.
        destruct (stream_url d); [discriminate | exact (K E)].
Qed.

Lemma url_known_deliver es d :
  url_known d /\ uris_set d ->
  url_known (deliver apikey es d) /\ uris_set (deliver apikey es d).
Proof.
  revert d. induction es as [|e rest IH]; intros d H; [exact H|].
  apply (IH (parse_callbacks apikey e d)), url_known_callback, H.
Qed.

(** C10: from the state [soundcloud_open_uri] starts with, after any
    sequence of callbacks a positive [got_url] comes with a non-null
    [stream_url], and every record emitted so far was built from a
    non-null [stream_url] (its URI is not the NULL that [g_strconcat]
    gives for a NULL first argument). *)
Theorem got_url_implies_stream_url g es :
  let d := deliver apikey es (initial_data g) in
  (got_url d > 0 -> stream_url d <> None)
  /\ (closes_record d = true ->
      exists u, stream_url d = Some u
        /\ uri (record_of apikey d)
           = Some (concat_until_null
                     [Some u; Some "?client_id="%string; apikey]))
  /\ Forall (fun s => uri s <> None) (songs d).
Proof.
  intros d.
  destruct (url_known_deliver es (initial_data g)) as [K U].
  { split; [intros C; contradiction C; reflexivity | constructor]. }
  fold d in K, U. split; [|split].
  - intros G. apply K. lia.
  - intros C. unfold closes_record in C.
    apply andb_true_iff in C. destruct C as [_ C].
    apply negb_true_iff in C.
    assert (E : got_url d <> 0) by (apply Z.eqb_neq; exact C).
    destruct (stream_url d) as [u|] eqn:HU; [|contradiction (K E)].
    exists u. split; [reflexivity|].
    unfold record_of. rewrite HU. reflexivity.
  - exact U.
Qed.

(** *** What survives the close of a record *)

Lemma same_but_stale_url_callback e a b :
  same_but_stale_url a b ->
  same_but_stale_url (parse_callbacks apikey e a) (parse_callbacks apikey e b).
Proof.
  intros [->|[G E]]; [left; reflexivity|].
  destruct a as [k1 u1 n1 t1 g1 s1], b as [k2 u2 n2 t2 g2 s2].
  unfold set_stream_url in E. simpl in G, E.
  injection E as -> -> -> -> ->. subst g2.
  destruct e; simpl; try (right; split; reflexivity).
  - unfold handle_integer. simpl.
    destruct (k2 =? Duration); right; split; reflexivity.
  - unfold handle_string. simpl.
    destruct (k2 =? Title); [right; split; reflexivity|].
    destruct (k2 =? Stream_URL); [left; reflexivity|].
    right; split; reflexivity.
Qed.

Lemma stale_url_unused es d u :
  got_url d = 0 ->
  songs (deliver apikey es (set_stream_url u d)) = songs (deliver apikey es d).
Proof.
  intros G.
  assert (R : same_but_stale_url (set_stream_url u d) d).
  { right. split; [exact G | reflexivity]. }
  revert R. generalize (set_stream_url u d) as a. revert d G.
  induction es as [|e rest IH]; intros d G a R.
  - destruct R as [->|[_ ->]]; reflexivity.
  - change (songs (deliver apikey rest (parse_callbacks apikey e a))
            = songs (deliver apikey rest (parse_callbacks apikey e d))).
    destruct (same_but_stale_url_callback e a d R) as [->|[G' E']];
      [reflexivity|].
    apply (IH _ G'). right. split; assumption.
Qed.

(** What [handle_end_map] touches when it closes a record at depth 1:
    it emits the record and sets [got_url] to 0, and nothing else; the
    [stream_url] left behind is never used for a later record. *)
Theorem record_close_keeps_scratch d es u :
  got_url d = 1 ->
  handle_end_map apikey d
  = mkData (key d) (stream_url d) (duration d) (title d) 0
           (record_of apikey d :: songs d)
  /\ songs (deliver apikey es (set_stream_url u (handle_end_map apikey d)))
     = songs (deliver apikey es (handle_end_map apikey d)).
Proof.
  intros G.
  assert (E : handle_end_map apikey d
              = mkData (key d) (stream_url d) (duration d) (title d) 0
                       (record_of apikey d :: songs d)).
  { unfold handle_end_map. rewrite G. reflexivity. }
  split; [exact E|].
  apply stale_url_unused. rewrite E. reflexivity.
Qed.

(** *** Where the code departs from its description *)

Lemma read_loop_ret_cases rs fin d :
  fst (read_loop apikey HAVE_YAJL1 rs fin d) = 0
  \/ fst (read_loop apikey HAVE_YAJL1 rs fin d) = -1.
Proof.
  revert d. induction rs as [|c rest IH]; intros d; simpl.
  - destruct fin; simpl; auto.
  - destruct (stat_is_error HAVE_YAJL1 (status c)); simpl; auto.
Qed.

(** A decode error on an opened stream ends [soundcloud_parse_json] with
    0, the value for success. *)
Lemma decode_error_returns_zero Open url stream d :
  Open url = Some stream ->
  Exists (fun c => stat_is_error HAVE_YAJL1 (status c) = true) (reads stream) ->
  fst (soundcloud_parse_json apikey HAVE_YAJL1 Open url d) = 0.
Proof.
  intros HO HE. unfold soundcloud_parse_json. rewrite HO.
  destruct (read_loop_ret_cases (reads stream) (ending stream) d) as [H|H];
    [exact H|].
  apply read_loop_ret in H. destruct H as [HF _].
  apply Exists_exists in HE. destruct HE as [c [Hin Hc]].
  rewrite Forall_forall in HF. rewrite (HF c Hin) in Hc. discriminate.
Qed.

Lemma open_uri_track Open g id :
  soundcloud_open_uri apikey HAVE_YAJL1 Open g ("soundcloud://track/" ++ id)
  = let '(ret, data) :=
      soundcloud_parse_json apikey HAVE_YAJL1 Open
        (concat_until_null
           [Some "http://api.soundcloud.com/tracks/"%string; Some id;
            Some ".json?client_id="%string; apikey])
        (initial_data g) in
    if ret =? -1 then None else Some (rev (songs data)).
Proof. reflexivity. Qed.

(** C1 (what the code does instead): when the stream of a
    [soundcloud://track/<id>] URI opens and the decoder reports an error
    in some read, [soundcloud_open_uri] does not return NULL; it returns
    a provider with the records that closed before the loop stopped. *)
Theorem decode_error_returns_partial_records Open g id stream :
  Open (concat_until_null
          [Some "http://api.soundcloud.com/tracks/"%string; Some id;
           Some ".json?client_id="%string; apikey])
    = Some stream ->
  Exists (fun c => stat_is_error HAVE_YAJL1 (status c) = true)
    (reads stream) ->
  soundcloud_open_uri apikey HAVE_YAJL1 Open g ("soundcloud://track/" ++ id)
  = Some (in_document_order apikey
            (events_delivered HAVE_YAJL1 (reads stream) (ending stream))
            (initial_data g)).
Proof.
  intros HO HE. rewrite open_uri_track.
  pose proof (decode_error_returns_zero Open _ stream (initial_data g) HO HE)
    as Z0.
  unfold soundcloud_parse_json in Z0 |- *. rewrite HO in Z0 |- *.
  pose proof (read_loop_state (reads stream) (ending stream) (initial_data g))
    as HS.
  destruct (read_loop apikey HAVE_YAJL1 (reads stream) (ending stream)
              (initial_data g)) as [ret data].
  simpl in Z0, HS. subst ret. cbn [Z.eqb].
  rewrite HS, songs_deliver. simpl. rewrite app_nil_r, rev_involutive.
  reflexivity.
Qed.

(** C4 (the code at failing inputs): a track object without a
    [duration] member gets the duration of the track before it, and a
    first such track gets whatever the uninitialised member held. *)
Theorem missing_duration_is_not_zero g :
  option_map (map (fun s => time (tag s)))
    (soundcloud_open_uri apikey HAVE_YAJL1 (serve doc_second_without_duration)
       g "soundcloud://playlist/1")
  = Some [5; 5]
  /\ option_map (map (fun s => time (tag s)))
       (soundcloud_open_uri apikey HAVE_YAJL1 (serve doc_bare) g
          "soundcloud://track/2")
     = Some [Z.quot (garbage_duration g) 1000].
Proof. split; reflexivity. Qed.

Lemma strncmp_prefix p q : strncmp p (p ++ q) (String.length p) = 0.
Proof.
  induction p as [|c r IH]; [reflexivity|].
  cbn [String.length strncmp String.append peek advance].
  rewrite Z.eqb_refl. cbn [negb].
  destruct (Z.of_nat (nat_of_ascii c) =? 0); [reflexivity | exact IH].
Qed.

(** Every prefix of "duration", the empty key included, selects
    [Duration]. *)
Lemma mapkey_prefix_of_duration p q d :
  "duration"%string = (p ++ q)%string ->
  key (handle_mapkey p d) = Duration.
Proof.
  intros E. unfold handle_mapkey, set_key. cbn [key key_str mapkey_loop].
  rewrite E, strncmp_prefix. reflexivity.
Qed.

(** C5 (the code at failing inputs): keys that are proper prefixes of a
    field name are classified as that field, and the value that follows
    is stored. *)
Theorem mapkey_accepts_prefixes d v s g :
  key (handle_mapkey "" d) = Duration
  /\ key (handle_mapkey "t" d) = Title
  /\ key (handle_mapkey "stream" d) = Stream_URL
  /\ duration (handle_integer v (handle_mapkey "d" d)) = v
  /\ title (handle_string s (handle_mapkey "t" d)) = Some (c_str s)
  /\ soundcloud_open_uri apikey HAVE_YAJL1 (serve doc_short_keys) g
       "soundcloud://track/1"
     = Some [mkSong (Some (concat_until_null
                             [Some "http://a/1"%string;
                              Some "?client_id="%string; apikey]))
                    (mkTag 7 [(TAG_NAME, "oops"%string)])].
Proof. repeat split. Qed.

End SoundCloudFacts.

(** C3 (the code at a failing input): after the first record of
    [doc_second_untitled] closes, [title] and [stream_url] still hold its
    values, where the claim has them cleared, and the second record,
    which has no title of its own, is returned with the title of the
    first. *)
Lemma title_leaks_into_next_record :
  title (deliver (Some "KEY"%string) obj_titled
           (initial_data (mkGarbage Other 0)))
  = Some "A"%string
  /\ stream_url (deliver (Some "KEY"%string) obj_titled
                   (initial_data (mkGarbage Other 0)))
     = Some "http://a/1"%string
  /\ soundcloud_open_uri (Some "KEY"%string) false (serve doc_second_untitled)
       (mkGarbage Other 0) "soundcloud://playlist/1"
     = Some [mkSong (Some "http://a/1?client_id=KEY"%string)
                    (mkTag 0 [(TAG_NAME, "A"%string)]);
             mkSong (Some "http://a/2?client_id=KEY"%string)
                    (mkTag 0 [(TAG_NAME, "A"%string)])].
Proof. repeat split. Qed.

(** [provider_in_source_order] on a document of two tracks that arrives
    in two reads, the first of which leaves the YAJL 1 decoder wanting
    more data. *)
Lemma provider_in_source_order_witness :
  soundcloud_open_uri (Some "KEY"%string) true
    (fun _ =>
       Some (mkStream
               [mkCall (yajl_start_array
                          :: track_events (mkTrack 5000 "A" "http://a/1"))
                       yajl_status_insufficient_data;
                mkCall (track_events (mkTrack 61000 "B" "http://a/2"))
                       yajl_status_ok]
               (at_eof (mkCall [yajl_end_array] yajl_status_ok))))
    (mkGarbage 0 0) "soundcloud://playlist/42"
  = Some [mkSong (Some "http://a/1?client_id=KEY"%string)
                 (mkTag 5 [(TAG_NAME, "A"%string)]);
          mkSong (Some "http://a/2?client_id=KEY"%string)
                 (mkTag 61 [(TAG_NAME, "B"%string)])].
Proof.
  refine (proj2 (proj2 (provider_in_source_order (Some "KEY"%string) true _
                          (mkGarbage 0 0) "soundcloud://playlist/42"
                          "http://api.soundcloud.com/playlists/42.json?client_id=KEY"
                          (mkStream
                             [mkCall (yajl_start_array
                                        :: track_events
                                             (mkTrack 5000 "A" "http://a/1"))
                                     yajl_status_insufficient_data;
                              mkCall (track_events
                                        (mkTrack 61000 "B" "http://a/2"))
                                     yajl_status_ok]
                             (at_eof (mkCall [yajl_end_array] yajl_status_ok)))
                          eq_refl eq_refl _))
            [mkTrack 5000 "A" "http://a/1"; mkTrack 61000 "B" "http://a/2"]
            eq_refl).
  right. eexists. reflexivity.
Defined.

(** [decode_error_returns_partial_records] on a document that breaks
    after its first track: the track comes back. *)
Lemma decode_error_returns_partial_records_witness :
  soundcloud_open_uri (Some "KEY"%string) false (serve doc_broken_after_first)
    (mkGarbage 0 0) "soundcloud://track/1"
  = Some [mkSong (Some "http://a/1?client_id=KEY"%string) (mkTag 5 [])].
Proof.
  apply (decode_error_returns_partial_records (Some "KEY"%string) false
           (serve doc_broken_after_first) (mkGarbage 0 0) "1"
           (mkStream [doc_broken_after_first]
              (at_eof (mkCall [] yajl_status_ok)))).
  - reflexivity.
  - constructor. reflexivity.
Defined.

(** [got_url_implies_stream_url] inside an object whose URL was just
    read. *)
Lemma got_url_implies_stream_url_witness :
  stream_url
    (deliver (Some "KEY"%string)
       [yajl_start_map; yajl_map_key "stream_url"; yajl_string "http://a/1"]
       (initial_data (mkGarbage 0 0)))
  <> None.
Proof.
  apply (proj1 (got_url_implies_stream_url (Some "KEY"%string)
                  (mkGarbage 0 0)
                  [yajl_start_map; yajl_map_key "stream_url";
                   yajl_string "http://a/1"])).
  reflexivity.
Defined.

(** [record_close_keeps_scratch] at the close of a titled record, with
    another object following. *)
Lemma record_close_keeps_scratch_witness :
  handle_end_map (Some "KEY"%string)
    (mkData Stream_URL (Some "http://a/1"%string) 5000 (Some "A"%string) 1 [])
  = mkData Stream_URL (Some "http://a/1"%string) 5000 (Some "A"%string) 0
      [mkSong (Some "http://a/1?client_id=KEY"%string)
              (mkTag 5 [(TAG_NAME, "A"%string)])]
  /\ songs (deliver (Some "KEY"%string) obj_bare
              (set_stream_url None
                 (handle_end_map (Some "KEY"%string)
                    (mkData Stream_URL (Some "http://a/1"%string) 5000
                       (Some "A"%string) 1 []))))
     = songs (deliver (Some "KEY"%string) obj_bare
                (handle_end_map (Some "KEY"%string)
                   (mkData Stream_URL (Some "http://a/1"%string) 5000
                      (Some "A"%string) 1 []))).
Proof.
  apply (record_close_keeps_scratch (Some "KEY"%string)
           (mkData Stream_URL (Some "http://a/1"%string) 5000
              (Some "A"%string) 1 [])
           obj_bare None).
  reflexivity.
Defined.

(** ** Facts about the registry *)

Import Registry.

Section RegistryFacts.

Context `{External}.
Variable playlist_plugins : list playlist_plugin.
Variable conf : list config_param.
Variable playlist_plugins_enabled : list bool.

Lemma flag_insert_eq (l : list bool) i b :
  i < length l -> flag (<[i := b]> l) i = b.
Proof. intros Hi. unfold flag. rewrite list_lookup_insert_eq; auto. Qed.

Lemma flag_insert_ne (l : list bool) i j b :
  i <> j -> flag (<[i := b]> l) j = flag l j.
Proof. intros Hn. unfold flag. rewrite list_lookup_insert_ne; auto. Qed.

(** *** The scheme pass and the suffix pass *)

Lemma scheme_pass_marks_failures ps : forall i uri scheme tried w r t w' tr,
  open_uri_scheme_from playlist_plugins_enabled i ps uri scheme tried w
  = (r, t, w', tr) ->
  i + length ps <= length tried ->
  length t = length tried
  /\ (forall j, flag tried j = true -> flag t j = true)
  /\ (forall j, In (call_open_uri by_scheme j false) tr -> flag t j = true)
  /\ (forall c, In c tr -> probe_of by_scheme c).
Proof.
  induction ps as [|plugin rest IH]; intros i uri scheme tried w r t w' tr E L.
  - simpl in E. injection E as <- <- <- <-.
    repeat split; auto; intros ? [].
  - simpl in E, L.
    destruct (eligible (flag playlist_plugins_enabled i) (open_uri plugin)
                (schemes plugin) scheme) as [f|].
    + destruct (f uri w) as [[playlist|] w1].
      * injection E as <- <- <- <-.
        repeat split; auto.
        -- intros j [C|[]]. discriminate.
        -- intros c [<-|[]]. eexists _, _. reflexivity.
      * destruct (open_uri_scheme_from playlist_plugins_enabled (S i) rest uri
                    scheme (<[i := true]> tried) w1)
          as [[[r0 t0] w0] tr0] eqn:E0.
        injection E as <- <- <- <-.
        apply IH in E0; [|rewrite length_insert; lia].
        destruct E0 as (HL & HM & HF & HP).
        rewrite length_insert in HL.
        repeat split.
        -- exact HL.
        -- intros j Hj. apply HM.
           destruct (decide (i = j)) as [->|Hn].
           ++ apply flag_insert_eq. lia.
           ++ rewrite flag_insert_ne; auto.
        -- intros j [C|C].
           ++ injection C as <-. apply HM, flag_insert_eq. lia.
           ++ apply HF, C.
        -- intros c [<-|C]; [eexists _, _; reflexivity | apply HP, C].
    + apply IH in E; [exact E | lia].
Qed.

Lemma eligible_Some {F : Type} usable (entry : option F) names needle f :
  eligible usable entry names needle = Some f ->
  usable = true /\ entry = Some f
  /\ exists l, names = Some l /\ string_array_contains l needle = true.
Proof.
  unfold eligible.
  destruct usable; [|discriminate].
  destruct entry as [g|]; [|discriminate].
  destruct names as [l|]; [|discriminate].
  destruct (string_array_contains l needle) eqn:C; [|discriminate].
  intros E. injection E as <-. eauto.
Qed.

Lemma suffix_pass_skips_tried ps : forall i uri suffix tried w r w' tr,
  open_uri_suffix_from playlist_plugins_enabled i ps uri suffix tried w
  = (r, w', tr) ->
  forall c, In c tr ->
    exists j ok, c = call_open_uri by_suffix j ok /\ flag tried j = false.
Proof.
  induction ps as [|plugin rest IH]; intros i uri suffix tried w r w' tr E c Hc.
  - simpl in E. injection E as <- <- <-. destruct Hc.
  - simpl in E.
    destruct (eligible (flag playlist_plugins_enabled i && negb (flag tried i))
                (open_uri plugin) (suffixes plugin) suffix) as [f|] eqn:El;
      [|eapply IH; eassumption].
    apply eligible_Some in El. destruct El as (U & _).
    apply andb_true_iff in U. destruct U as [_ Tr].
    apply negb_true_iff in Tr.
    destruct (f uri w) as [[playlist|] w1].
    + injection E as <- <- <-. destruct Hc as [<-|[]].
      eexists _, _. split; [reflexivity | exact Tr].
    + destruct (open_uri_suffix_from playlist_plugins_enabled (S i) rest uri
                  suffix tried w1) as [[r0 w0] tr0] eqn:E0.
      injection E as <- <- <-. destruct Hc as [<-|Hc].
      * eexists _, _. split; [reflexivity | exact Tr].
      * eapply IH; eassumption.
Qed.

(** C2: within one call of [playlist_list_open_uri], a plugin whose open
    attempt failed in the scheme pass is not probed in the suffix pass. *)
Theorem failed_scheme_probe_not_retried uri w r w' tr i :
  playlist_list_open_uri playlist_plugins playlist_plugins_enabled uri w
  = (r, w', tr) ->
  In (call_open_uri by_scheme i false) tr ->
  forall opened, ~ In (call_open_uri by_suffix i opened) tr.
Proof.
  unfold playlist_list_open_uri.
  destruct (playlist_list_open_uri_scheme playlist_plugins
              playlist_plugins_enabled uri
              (replicate (length playlist_plugins) false) w)
    as [[[r1 t1] w1] tr1] eqn:E1.
  assert (S1 : (forall j, In (call_open_uri by_scheme j false) tr1
                          -> flag t1 j = true)
               /\ (forall c, In c tr1 -> probe_of by_scheme c)).
  { unfold playlist_list_open_uri_scheme in E1.
    destruct (g_uri_parse_scheme uri) as [scheme|].
    - apply scheme_pass_marks_failures in E1.
      + destruct E1 as (_ & _ & HF & HP). split; assumption.
      + rewrite length_replicate. lia.
    - injection E1 as <- <- <- <-. split; intros ? []. }
  destruct S1 as [HF HP].
  assert (scheme_only : forall opened,
             ~ In (call_open_uri by_suffix i opened) tr1).
  { intros opened C. apply HP in C. destruct C as (j & ok & C). discriminate. }
  destruct r1 as [playlist|].
  - intros E _. injection E as <- <- <-. exact scheme_only.
  - destruct (playlist_list_open_uri_suffix playlist_plugins
                playlist_plugins_enabled uri t1 w1) as [[r2 w2] tr2] eqn:E2.
    intros E Hin opened C. injection E as <- <- <-.
    apply in_app_or in Hin. apply in_app_or in C.
    destruct C as [C|C]; [exact (scheme_only opened C)|].
    assert (T : flag t1 i = true).
    { destruct Hin as [Hin|Hin]; [exact (HF i Hin)|].
      unfold playlist_list_open_uri_suffix in E2.
      destruct (uri_get_suffix uri) as [suffix|].
      - destruct (suffix_pass_skips_tried _ _ _ _ _ _ _ _ _ E2 _ Hin)
          as (j & ok & Q & _).
        discriminate.
      - injection E2 as <- <- <-. destruct Hin. }
    unfold playlist_list_open_uri_suffix in E2.
    destruct (uri_get_suffix uri) as [suffix|].
    + destruct (suffix_pass_skips_tried _ _ _ _ _ _ _ _ _ E2 _ C)
        as (j & ok & Q & F).
      injection Q as <- <-. congruence.
    + injection E2 as <- <- <-. destruct C.
Qed.

(** *** Initialisation and shutdown *)

(** The two ways one turn of the initialisation loop can go. *)
Lemma global_init_from_cons i plugin rest enabled w en w' tr :
  global_init_from conf i (plugin :: rest) enabled w = Some (en, w', tr) ->
  (exists param,
      playlist_plugin_config conf (name plugin) = block param
      /\ GetBlockValue_bool param "enabled" true = false
      /\ global_init_from conf (S i) rest enabled w = Some (en, w', tr))
  \/ (exists param ok w1 tr0,
        playlist_plugin_init plugin param w = (ok, w1)
        /\ global_init_from conf (S i) rest (<[i := ok]> enabled) w1
           = Some (en, w', tr0)
        /\ tr = call_init i ok :: tr0
        /\ forall q, playlist_plugin_config conf (name plugin) = block q ->
                     GetBlockValue_bool q "enabled" true = true).
Proof.
  cbn [global_init_from].
  destruct (playlist_plugin_config conf (name plugin)) as [| |param] eqn:L;
    [discriminate| |].
  - destruct (playlist_plugin_init plugin empty_param w) as [ok w1] eqn:I.
    destruct (global_init_from conf (S i) rest (<[i := ok]> enabled) w1)
      as [[[en0 w0] tr0]|] eqn:R; [|discriminate].
    intros E. injection E as <- <- <-. right.
    exists empty_param, ok, w1, tr0. repeat split; auto. discriminate.
  - destruct (GetBlockValue_bool param "enabled" true) eqn:G; cbn [negb].
    + destruct (playlist_plugin_init plugin param w) as [ok w1] eqn:I.
      destruct (global_init_from conf (S i) rest (<[i := ok]> enabled) w1)
        as [[[en0 w0] tr0]|] eqn:R; [|discriminate].
      intros E. injection E as <- <- <-. right.
      exists param, ok, w1, tr0. repeat split; auto.
      intros q Q. injection Q as <-. exact G.
    + intros E. left. exists param. auto.
Qed.

Lemma init_from_frame ps : forall i enabled w en w' tr,
  global_init_from conf i ps enabled w = Some (en, w', tr) ->
  length en = length enabled
  /\ (forall j, j < i -> flag en j = flag enabled j)
  /\ (forall c, In c tr -> exists j ok, c = call_init j ok /\ i <= j).
Proof.
  induction ps as [|plugin rest IH]; intros i enabled w en w' tr E.
  - injection E as <- <- <-. repeat split; auto. intros ? [].
  - apply global_init_from_cons in E.
    destruct E as [(param & _ & _ & E)|(param & ok & w1 & tr0 & _ & E & -> & _)];
      apply IH in E; destruct E as (HL & HF & HC).
    + split; [exact HL|split].
      * intros j Hj. apply HF. lia.
      * intros c Hc. destruct (HC c Hc) as (j & ok & -> & Hj).
        exists j, ok. split; [reflexivity | lia].
    + rewrite length_insert in HL. split; [exact HL|split].
      * intros j Hj. rewrite HF by lia. apply flag_insert_ne. lia.
      * intros c [<-|Hc]; [exists i, ok; split; [reflexivity | lia]|].
        destruct (HC c Hc) as (j & ok' & -> & Hj).
        exists j, ok'. split; [reflexivity | lia].
Qed.

(** The flag of a slot is what its init call returned. *)
Lemma init_from_results ps : forall i enabled w en w' tr,
  global_init_from conf i ps enabled w = Some (en, w', tr) ->
  i + length ps <= length enabled ->
  forall j ok, In (call_init j ok) tr -> flag en j = ok.
Proof.
  induction ps as [|plugin rest IH]; intros i enabled w en w' tr E L j ok Hin.
  - injection E as <- <- <-. destruct Hin.
  - cbn [length] in L. apply global_init_from_cons in E.
    destruct E as [(param & _ & _ & E)|(param & ok0 & w1 & tr0 & _ & E & -> & _)].
    + eapply IH; [exact E | lia | exact Hin].
    + destruct Hin as [C|Hin].
      * injection C as <- <-.
        destruct (init_from_frame _ _ _ _ _ _ _ E) as (_ & HF & _).
        rewrite HF by lia. apply flag_insert_eq. lia.
      * eapply IH; [exact E | rewrite length_insert; lia | exact Hin].
Qed.

(** A plugin disabled by its block keeps its flag and sees no init. *)
Lemma init_from_skipped ps : forall i enabled w en w' tr k plugin param,
  global_init_from conf i ps enabled w = Some (en, w', tr) ->
  ps !! k = Some plugin ->
  playlist_plugin_config conf (name plugin) = block param ->
  GetBlockValue_bool param "enabled" true = false ->
  flag en (i + k) = flag enabled (i + k)
  /\ forall ok, ~ In (call_init (i + k) ok) tr.
Proof.
  induction ps as [|p rest IH];
    intros i enabled w en w' tr k plugin param E Hk Hc Hd; [discriminate|].
  apply global_init_from_cons in E.
  destruct k as [|k]; simpl in Hk.
  - injection Hk as ->. rewrite Nat.add_0_r.
    destruct E as [(q & _ & _ & E)|(q & ok0 & w1 & tr0 & _ & _ & _ & Q)].
    + destruct (init_from_frame _ _ _ _ _ _ _ E) as (_ & HF & HC).
      split; [apply HF; lia|].
      intros ok Hin. destruct (HC _ Hin) as (j & ok' & C & Hj).
      injection C as <- <-. lia.
    + rewrite (Q _ Hc) in Hd. discriminate.
  - replace (i + S k) with (S i + k) by lia.
    destruct E as [(q & _ & _ & E)|(q & ok0 & w1 & tr0 & _ & E & -> & _)].
    + eapply IH; eassumption.
    + destruct (IH _ _ _ _ _ _ _ _ _ E Hk Hc Hd) as [HF HN].
      split.
      * rewrite HF. apply flag_insert_ne. lia.
      * intros ok [C|Hin]; [injection C; lia | exact (HN ok Hin)].
Qed.

Lemma finish_trace ps : forall i enabled w,
  snd (global_finish_from i ps enabled w)
  = map call_finish (List.filter (flag enabled) (seq i (length ps))).
Proof.
  induction ps as [|plugin rest IH]; intros i enabled w; [reflexivity|].
  cbn [global_finish_from length seq List.filter].
  destruct (flag enabled i).
  - specialize (IH (S i) enabled (playlist_plugin_finish plugin w)).
    destruct (global_finish_from (S i) rest enabled
                (playlist_plugin_finish plugin w)) as [w2 tr].
    simpl in IH |- *. rewrite IH. reflexivity.
  - apply IH.
Qed.

(** The world left by shutdown is the one the finish functions of the
    flagged slots produce, run in table order. *)
Lemma finish_world ps : forall pre i enabled w,
  playlist_plugins = pre ++ ps -> i = length pre ->
  fst (global_finish_from i ps enabled w)
  = finished_in_order playlist_plugins
      (List.filter (flag enabled) (seq i (length ps))) w.
Proof.
  induction ps as [|plugin rest IH]; intros pre i enabled w Hs Hi;
    [reflexivity|].
  assert (L : playlist_plugins !! i = Some plugin).
  { rewrite Hs, Hi. apply list_lookup_middle. reflexivity. }
  assert (Hs' : playlist_plugins = (pre ++ [plugin]) ++ rest)
    by (rewrite <- app_assoc; exact Hs).
  assert (Hi' : S i = length (pre ++ [plugin]))
    by (rewrite length_app; simpl; lia).
  cbn [global_finish_from length seq List.filter].
  destruct (flag enabled i).
  - specialize (IH _ _ enabled (playlist_plugin_finish plugin w) Hs' Hi').
    destruct (global_finish_from (S i) rest enabled
                (playlist_plugin_finish plugin w)) as [w2 tr].
    simpl in IH |- *. unfold finished_in_order in IH |- *.
    cbn [fold_left]. rewrite L. exact IH.
  - apply (IH _ _ enabled w Hs' Hi').
Qed.

(** Every init call in the trace is a call of that slot's init, on the
    block found for the plugin, and carries what the call returned. *)
Lemma init_calls_are_real ps : forall pre i enabled w en w' tr,
  playlist_plugins = pre ++ ps -> i = length pre ->
  global_init_from conf i ps enabled w = Some (en, w', tr) ->
  forall j ok, In (call_init j ok) tr ->
    exists plugin param wj wj',
      playlist_plugins !! j = Some plugin
      /\ init_param (playlist_plugin_config conf (name plugin)) param
      /\ init plugin param wj = (ok, wj').
Proof.
  induction ps as [|plugin rest IH];
    intros pre i enabled w en w' tr Hs Hi E j ok Hin.
  - injection E as <- <- <-. destruct Hin.
  - assert (L : playlist_plugins !! i = Some plugin).
    { rewrite Hs, Hi. apply list_lookup_middle. reflexivity. }
    assert (Hs' : playlist_plugins = (pre ++ [plugin]) ++ rest)
      by (rewrite <- app_assoc; exact Hs).
    assert (Hi' : S i = length (pre ++ [plugin]))
      by (rewrite length_app; simpl; lia).
    cbn [global_init_from] in E.
    assert (R : forall param,
              init_param (playlist_plugin_config conf (name plugin)) param ->
              (let '(ok0, w1) := playlist_plugin_init plugin param w in
               match global_init_from conf (S i) rest (<[i := ok0]> enabled) w1
               with
               | Some (en0, w2, tr0) => Some (en0, w2, call_init i ok0 :: tr0)
               | None => None
               end) = Some (en, w', tr) ->
              exists plugin0 param0 wj wj',
                playlist_plugins !! j = Some plugin0
                /\ init_param (playlist_plugin_config conf (name plugin0))
                     param0
                /\ init plugin0 param0 wj = (ok, wj')).
    { intros param P E0.
      destruct (playlist_plugin_init plugin param w) as [ok0 w1] eqn:I.
      destruct (global_init_from conf (S i) rest (<[i := ok0]> enabled) w1)
        as [[[en0 w2] tr0]|] eqn:E1; [|discriminate].
      injection E0 as <- <- <-. destruct Hin as [C|Hin].
      - injection C as <- <-. exists plugin, param, w, w1. auto.
      - exact (IH _ _ _ _ _ _ _ Hs' Hi' E1 j ok Hin). }
    destruct (playlist_plugin_config conf (name plugin)) as [| |param] eqn:Lk;
      [discriminate| |].
    + apply (R empty_param); [left; split; reflexivity | exact E].
    + destruct (negb (GetBlockValue_bool param "enabled" true)).
      * exact (IH _ _ _ _ _ _ _ Hs' Hi' E j ok Hin).
      * apply (R param); [right; reflexivity | exact E].
Qed.

(** The init of a plugin that its block disables plays no part in
    startup: any other function in its place leaves the outcome as it
    is. *)
Lemma init_of_disabled_unused ps : forall j k enabled w plugin param f,
  ps !! j = Some plugin ->
  playlist_plugin_config conf (name plugin) = block param ->
  GetBlockValue_bool param "enabled" true = false ->
  global_init_from conf k (<[j := with_init f plugin]> ps) enabled w
  = global_init_from conf k ps enabled w.
Proof.
  induction ps as [|p rest IH];
    intros j k enabled w plugin param f Hj Hc Hd; [discriminate|].
  destruct j as [|j]; simpl in Hj.
  - injection Hj as ->.
    change (<[0 := with_init f plugin]> (plugin :: rest))
      with (with_init f plugin :: rest).
    cbn [global_init_from with_init name].
    rewrite Hc, Hd. reflexivity.
  - change (<[S j := with_init f plugin]> (p :: rest))
      with (p :: <[j := with_init f plugin]> rest).
    cbn [global_init_from].
    destruct (playlist_plugin_config conf (name p)) as [| |q];
      [reflexivity| |].
    + destruct (playlist_plugin_init p empty_param w) as [ok w1].
      rewrite (IH j (S k) _ w1 plugin param f Hj Hc Hd). reflexivity.
    + destruct (negb (GetBlockValue_bool q "enabled" true)).
      * apply (IH j (S k) _ w plugin param f Hj Hc Hd).
      * destruct (playlist_plugin_init p q w) as [ok w1].
        rewrite (IH j (S k) _ w1 plugin param f Hj Hc Hd). reflexivity.
Qed.

(** C9: after [playlist_list_global_init] has run, shutdown calls finish
    once for each plugin slot whose flag is set, in table order, and for
    no other: the calls it makes are those, and the world it leaves is
    the one these finish functions produce, run in that order. A plugin
    whose init returned false is not finished; every init call recorded
    is a call of that plugin's init and carries its result. A plugin
    disabled by its configuration block keeps a false flag, is never
    initialised (whatever its init function is, startup goes the same
    way) and is not finished. *)
Theorem init_finish_paired w en w1 tr1 :
  playlist_list_global_init playlist_plugins conf w = Some (en, w1, tr1) ->
  let tr2 := snd (playlist_list_global_finish playlist_plugins en w1) in
  tr2 = map call_finish
          (List.filter (flag en) (seq 0 (length playlist_plugins)))
  /\ List.NoDup tr2
  /\ (forall i, In (call_finish i) tr2
                <-> i < length playlist_plugins /\ flag en i = true)
  /\ (forall i, In (call_init i false) tr1 -> ~ In (call_finish i) tr2)
  /\ (forall i plugin param,
        playlist_plugins !! i = Some plugin ->
        playlist_plugin_config conf (name plugin) = block param ->
        GetBlockValue_bool param "enabled" true = false ->
        flag en i = false
        /\ (forall ok, ~ In (call_init i ok) tr1)
        /\ ~ In (call_finish i) tr2)
  /\ fst (playlist_list_global_finish playlist_plugins en w1)
     = finished_in_order playlist_plugins
         (List.filter (flag en) (seq 0 (length playlist_plugins))) w1
  /\ (forall i ok, In (call_init i ok) tr1 ->
        exists plugin param wi wi',
          playlist_plugins !! i = Some plugin
          /\ init_param (playlist_plugin_config conf (name plugin)) param
          /\ init plugin param wi = (ok, wi'))
  /\ (forall i plugin param f,
        playlist_plugins !! i = Some plugin ->
        playlist_plugin_config conf (name plugin) = block param ->
        GetBlockValue_bool param "enabled" true = false ->
        playlist_list_global_init (<[i := with_init f plugin]> playlist_plugins)
          conf w
        = playlist_list_global_init playlist_plugins conf w).
Proof.
  intros E0.
  assert (Old :
    let tr2 := snd (playlist_list_global_finish playlist_plugins en w1) in
    tr2 = map call_finish
            (List.filter (flag en) (seq 0 (length playlist_plugins)))
    /\ List.NoDup tr2
    /\ (forall i, In (call_finish i) tr2
                  <-> i < length playlist_plugins /\ flag en i = true)
    /\ (forall i, In (call_init i false) tr1 -> ~ In (call_finish i) tr2)
    /\ (forall i plugin param,
          playlist_plugins !! i = Some plugin ->
          playlist_plugin_config conf (name plugin) = block param ->
          GetBlockValue_bool param "enabled" true = false ->
          flag en i = false
          /\ (forall ok, ~ In (call_init i ok) tr1)
          /\ ~ In (call_finish i) tr2)).
  { revert E0.
    unfold playlist_list_global_init, playlist_list_global_finish.
    intros E.
    set (tr2 := snd (global_finish_from 0 playlist_plugins en w1)).
    cbv zeta.
    assert (T : tr2 = map call_finish
                        (List.filter (flag en)
                           (seq 0 (length playlist_plugins))))
      by apply finish_trace.
    assert (M : forall i, In (call_finish i) tr2
                          <-> i < length playlist_plugins /\ flag en i = true).
    { intros i. rewrite T, in_map_iff. split.
      - intros (j & C & Hj). injection C as ->.
        apply filter_In in Hj. destruct Hj as [Hs Hf].
        apply in_seq in Hs. split; [lia | exact Hf].
      - intros [Hi Hf]. exists i. split; [reflexivity|].
        apply filter_In. split; [apply in_seq; lia | exact Hf]. }
    split; [exact T|]. split; [|split; [exact M|split]].
    - rewrite T. apply Finite.Injective_map_NoDup.
      + intros a b C. injection C. auto.
      + apply List.NoDup_filter, seq_NoDup.
    - intros i Hin C. apply M in C. destruct C as [_ C].
      rewrite (init_from_results _ _ _ _ _ _ _ E) with (ok := false) in C.
      + discriminate.
      + unfold playlist_plugins_enabled_initially.
        rewrite length_replicate. lia.
      + exact Hin.
    - intros i plugin param Hp Hc Hd.
      destruct (init_from_skipped _ _ _ _ _ _ _ _ _ _ E Hp Hc Hd) as [HF HN].
      simpl in HF, HN.
      assert (F : flag en i = false).
      { rewrite HF. unfold flag, playlist_plugins_enabled_initially.
        destruct (replicate (S (length playlist_plugins)) false !! i) as [b|] eqn:R;
          [|reflexivity].
        apply lookup_replicate in R. destruct R as [-> _]. reflexivity. }
      split; [exact F|]. split; [exact HN|].
      intros C. apply M in C. destruct C as [_ C]. congruence.
  }
  cbv zeta in Old |- *.
  destruct Old as (O1 & O2 & O3 & O4 & O5).
  split; [exact O1|]. split; [exact O2|]. split; [exact O3|].
  split; [exact O4|]. split; [exact O5|]. split; [|split].
  - unfold playlist_list_global_finish.
    apply (finish_world playlist_plugins [] 0 en w1 eq_refl eq_refl).
  - unfold playlist_list_global_init in E0.
    exact (init_calls_are_real playlist_plugins [] 0 _ _ _ _ _ eq_refl eq_refl
             E0).
  - intros i plugin param f Hp Hc Hd.
    unfold playlist_list_global_init, playlist_plugins_enabled_initially.
    rewrite length_insert.
    apply (init_of_disabled_unused _ _ _ _ _ plugin param f Hp Hc Hd).
Qed.

(** *** Opening a stream *)

Lemma strchr_app pre c rest :
  strchr pre c = None ->
  strchr (pre ++ String c rest) c = Some (String.length pre).
Proof.
  induction pre as [|x r IH]; simpl.
  - intros _. rewrite Ascii.eqb_refl. reflexivity.
  - destruct (Ascii.eqb x c); [discriminate|].
    destruct (strchr r c); [discriminate|].
    intros _. rewrite IH; reflexivity.
Qed.

Lemma g_strndup_app pre rest :
  strchr pre zero = None ->
  g_strndup (pre ++ rest) (String.length pre) = pre.
Proof.
  induction pre as [|x r IH]; simpl.
  - intros _. destruct rest; reflexivity.
  - destruct (Ascii.eqb x zero); [discriminate|].
    destruct (strchr r zero); [discriminate|].
    intros _. rewrite IH; reflexivity.
Qed.

Lemma open_stream_mime_usable w full m :
  usable_mime full m ->
  playlist_list_open_stream_mime playlist_plugins playlist_plugins_enabled
    w full
  = playlist_list_open_stream_mime2 playlist_plugins playlist_plugins_enabled
      w m.
Proof.
  intros U. unfold playlist_list_open_stream_mime.
  destruct U as [m Hs|m rest Hne Hs Hz].
  - rewrite Hs. reflexivity.
  - rewrite (strchr_app m ";" rest Hs).
    destruct m as [|c r]; [contradiction|].
    cbn [String.length].
    change (S (String.length r)) with (String.length (String c r)).
    rewrite (g_strndup_app (String c r) (String ";" rest) Hz). reflexivity.
Qed.


Lemma open_stream_first_eligible via names needle ps :
  forall i k p f playlist w w',
    ps !! k = Some p ->
    eligible (flag playlist_plugins_enabled (i + k)) (open_stream p)
      (names p) needle = Some f ->
    (forall k' q, k' < k -> ps !! k' = Some q ->
       eligible (flag playlist_plugins_enabled (i + k')) (open_stream q)
         (names q) needle = None) ->
    f (Seek w) = (Some playlist, w') ->
    open_stream_from playlist_plugins_enabled via names i ps needle w
    = (Some playlist, w', [call_seek; call_open_stream via (i + k) true]).
Proof.
  induction ps as [|q rest IH]; intros i k p f playlist w w' Hk He Hb Hf;
    [discriminate|].
  destruct k as [|k]; simpl in Hk.
  - injection Hk as ->. rewrite Nat.add_0_r in He |- *.
    cbn [open_stream_from]. rewrite He, Hf. reflexivity.
  - cbn [open_stream_from].
    pose proof (Hb 0 q ltac:(lia) eq_refl) as H0.
    rewrite Nat.add_0_r in H0. rewrite H0.
    replace (i + S k) with (S i + k) in * by lia.
    eapply IH; eauto.
    intros k' q' Hlt Hq.
    specialize (Hb (S k') q' ltac:(lia) Hq).
    replace (i + S k') with (S i + k') in Hb by lia. exact Hb.
Qed.

(** C6: when the stream's MIME type is usable and the first plugin it
    maps to (enabled, able to open streams, listing the type) opens the
    rewound stream, [playlist_list_open_stream] returns that plugin's
    provider after this one probe, whatever the URI and whichever plugins
    its suffix maps to: no suffix probe is made. *)
Theorem mime_match_precedes_suffix w uri full mime j plugin f l playlist w' :
  GetMimeType (LockWaitReady w) = Some full ->
  usable_mime full mime ->
  playlist_plugins !! j = Some plugin ->
  flag playlist_plugins_enabled j = true ->
  open_stream plugin = Some f ->
  mime_types plugin = Some l ->
  string_array_contains l mime = true ->
  (forall k q, k < j -> playlist_plugins !! k = Some q ->
     eligible (flag playlist_plugins_enabled k) (open_stream q)
       (mime_types q) mime = None) ->
  f (Seek (LockWaitReady w)) = (Some playlist, w') ->
  playlist_list_open_stream playlist_plugins playlist_plugins_enabled w uri
  = (Some playlist, w', [call_seek; call_open_stream by_mime j true]).
Proof.
  intros G U Hj En Ho Hm Hc Hb Hf.
  unfold playlist_list_open_stream. rewrite G.
  rewrite (open_stream_mime_usable _ _ _ U).
  unfold playlist_list_open_stream_mime2.
  rewrite (open_stream_first_eligible by_mime mime_types mime playlist_plugins
             0 j plugin f playlist (LockWaitReady w) w'); auto.
  unfold eligible. cbn [Nat.add]. rewrite En, Ho, Hm, Hc. reflexivity.
Qed.

End RegistryFacts.

(** [failed_scheme_probe_not_retried] on the sample installation: the
    feed plugin claims the scheme and the suffix of the URI, fails in the
    scheme pass and is left out of the suffix pass. *)
Lemma failed_scheme_probe_not_retried_witness :
  @playlist_list_open_uri Sample.installation Sample.plugins
    Sample.all_enabled "http://host/list.xml" Sample.idle
  = (None, Sample.idle, [call_open_uri by_scheme 3 false])
  /\ forall opened,
       ~ In (call_open_uri by_suffix 3 opened)
            [call_open_uri by_scheme 3 false].
Proof.
  split; [reflexivity|].
  apply (@failed_scheme_probe_not_retried Sample.installation Sample.plugins
           Sample.all_enabled "http://host/list.xml" Sample.idle
           None Sample.idle [call_open_uri by_scheme 3 false] 3).
  - reflexivity.
  - left. reflexivity.
Defined.

(** [init_finish_paired] on the journal plugins: m3u is disabled by its
    block, soundcloud refuses to start, and shutdown finishes xspf and
    feed, whose digits 1 and 4 are what the journal then reads. *)
Lemma init_finish_paired_witness :
  @playlist_list_global_finish Sample.installation
    SampleJournal.journal_plugins [true; false; false; true; false]
    Sample.idle
  = (Sample.mkWorld None 14 None, [call_finish 0; call_finish 3])
  /\ ~ In (call_finish 2)
          (snd (@playlist_list_global_finish Sample.installation
                  SampleJournal.journal_plugins
                  [true; false; false; true; false] Sample.idle)).
Proof.
  pose proof (@init_finish_paired Sample.installation
                SampleJournal.journal_plugins Sample.mpd_conf Sample.idle
                [true; false; false; true; false] Sample.idle
                [call_init 0 true; call_init 2 false; call_init 3 true]
                eq_refl) as P.
  destruct P as (T & _ & _ & F & _ & Wd & _).
  split.
  - apply injective_projections; [exact Wd | exact T].
  - apply F. right. left. reflexivity.
Defined.


(** [mime_match_precedes_suffix] on the sample installation: the MIME
    type names xspf, the suffix of the URI names m3u, and xspf is
    chosen. *)
Lemma mime_match_precedes_suffix_witness :
  @playlist_list_open_stream Sample.installation Sample.plugins
    Sample.all_enabled Sample.xml_stream (Some "http://host/list.m3u"%string)
  = (Some [mkSong (Some "from xspf"%string) (mkTag 0 [])],
     Sample.mkWorld (Some "text/xml; charset=utf-8"%string) 16 None,
     [call_seek; call_open_stream by_mime 0 true]).
Proof.
  apply (@mime_match_precedes_suffix Sample.installation Sample.plugins
           Sample.all_enabled Sample.xml_stream
           (Some "http://host/list.m3u"%string)
           "text/xml; charset=utf-8" "text/xml" 0 Sample.xspf_plugin
           (Sample.reads_stream "from xspf")
           ["application/xspf+xml"%string; "text/xml"%string]).
  - reflexivity.
  - exact (mime_with_parameters "text/xml" " charset=utf-8"
             ltac:(discriminate) eq_refl eq_refl).
  - reflexivity.
  - reflexivity.
  - reflexivity.
  - reflexivity.
  - reflexivity.
  - intros k q Hk. inversion Hk.
  - reflexivity.
Defined.

(** ** More facts about the SoundCloud plugin *)

Import Events.

Section SoundCloudURIs.

Local Open Scope Z_scope.

Variable apikey : option string.
Variable HAVE_YAJL1 : bool.

Lemma peek_char r (c : ascii) :
  peek r = Z.of_nat (nat_of_ascii c) -> c <> zero ->
  exists r', r = String c r'.
Proof.
  destruct r as [|x r']; simpl; intros E Hc.
  - exfalso. apply Hc.
    rewrite <- (ascii_nat_embedding c).
    replace (nat_of_ascii c) with 0%nat by lia. reflexivity.
  - exists r'. f_equal.
    rewrite <- (ascii_nat_embedding x), <- (ascii_nat_embedding c).
    f_equal. lia.
Qed.

(** The first loop either finds no "://" or splits around the one it
    found. *)
Lemma cut_scheme_spec s : forall a b,
  cut_scheme s = (a, b) ->
  (s = a /\ b = EmptyString) \/ s = (a ++ "://" ++ b)%string.
Proof.
  induction s as [|c r IH]; intros a b E; simpl in E.
  - injection E as <- <-. left. split; reflexivity.
  - destruct (Ascii.eqb c ":" && (peek r =? 47) && (peek (advance r) =? 47))%bool
      eqn:C.
    + injection E as <- <-.
      apply andb_true_iff in C. destruct C as [C C3].
      apply andb_true_iff in C. destruct C as [C1 C2].
      apply Ascii.eqb_eq in C1. apply Z.eqb_eq in C2, C3. subst c.
      destruct (peek_char r "/" C2 ltac:(discriminate)) as [r1 ->].
      simpl in C3.
      destruct (peek_char r1 "/" C3 ltac:(discriminate)) as [r2 ->].
      right. reflexivity.
    + destruct (cut_scheme r) as [a0 b0]. injection E as <- <-.
      destruct (IH a0 b0 eq_refl) as [[-> ->]| ->].
      * left. split; reflexivity.
      * right. reflexivity.
Qed.

Lemma cut_slash_spec s : forall a b,
  cut_slash s = (a, b) ->
  (s = a /\ b = EmptyString) \/ s = (a ++ "/" ++ b)%string.
Proof.
  induction s as [|c r IH]; intros a b E; simpl in E.
  - injection E as <- <-. left. split; reflexivity.
  - destruct (Ascii.eqb_spec c "/") as [->|_].
    + injection E as <- <-. right. reflexivity.
    + destruct (cut_slash r) as [a0 b0]. injection E as <- <-.
      destruct (IH a0 b0 eq_refl) as [[-> ->]| ->].
      * left. split; reflexivity.
      * right. reflexivity.
Qed.

(** X1: [soundcloud_open_uri] returns a provider only for URIs of the
    form soundcloud://<kind> or soundcloud://<kind>/<rest> with <kind>
    one of track, playlist and url. *)
Theorem open_uri_accepts_three_forms Open g uri p :
  soundcloud_open_uri apikey HAVE_YAJL1 Open g uri = Some p ->
  exists kind rest,
    (kind = "track" \/ kind = "playlist" \/ kind = "url")%string
    /\ (uri = ("soundcloud://" ++ kind)%string
        \/ uri = ("soundcloud://" ++ kind ++ "/" ++ rest)%string).
Proof.
  unfold soundcloud_open_uri.
  destruct (cut_scheme uri) as [scheme q] eqn:E1.
  destruct (cut_slash q) as [arg rest] eqn:E2.
  unfold streq.
  destruct (String.eqb_spec scheme "soundcloud") as [->|_];
    [cbn [negb]|discriminate].
  intros R. exists arg, rest.
  assert (K : (arg = "track" \/ arg = "playlist" \/ arg = "url")%string).
  { destruct (String.eqb_spec arg "track") as [->|_]; [auto|].
    destruct (String.eqb_spec arg "playlist") as [->|_]; [auto|].
    destruct (String.eqb_spec arg "url") as [->|_]; [auto|discriminate]. }
  split; [exact K|].
  apply cut_scheme_spec in E1. apply cut_slash_spec in E2.
  destruct E1 as [[-> ->]| ->].
  - simpl in E2. exfalso.
    destruct E2 as [[E _]|E]; [|destruct arg; discriminate].
    subst arg. destruct K as [K|[K|K]]; discriminate.
  - destruct E2 as [[-> ->]| ->]; [left|right]; reflexivity.
Qed.

Lemma request_goes_to_api arg rest url :
  (if streq arg "track" then
     g_strconcat [Some "http://api.soundcloud.com/tracks/"%string;
                  Some rest; Some ".json?client_id="%string; apikey]
   else if streq arg "playlist" then
     g_strconcat [Some "http://api.soundcloud.com/playlists/"%string;
                  Some rest; Some ".json?client_id="%string; apikey]
   else if streq arg "url" then soundcloud_resolve apikey rest
   else None) = Some url ->
  String.prefix api_host url = true.
Proof.
  destruct (streq arg "track"); [intros E; injection E as <-; reflexivity|].
  destruct (streq arg "playlist"); [intros E; injection E as <-; reflexivity|].
  destruct (streq arg "url"); [|discriminate].
  unfold soundcloud_resolve.
  destruct (g_str_has_prefix rest "http://");
    [intros E; injection E as <-; reflexivity|].
  destruct (g_str_has_prefix rest "soundcloud.com");
    intros E; injection E as <-; reflexivity.
Qed.

(** X2: the only URLs [soundcloud_open_uri] opens are on
    http://api.soundcloud.com/: two transports that agree there give the
    same result for every URI. *)
Theorem open_uri_only_contacts_api Open1 Open2 g uri :
  (forall url, String.prefix api_host url = true -> Open1 url = Open2 url) ->
  soundcloud_open_uri apikey HAVE_YAJL1 Open1 g uri
  = soundcloud_open_uri apikey HAVE_YAJL1 Open2 g uri.
Proof.
  intros A. unfold soundcloud_open_uri.
  destruct (cut_scheme uri) as [scheme q].
  destruct (cut_slash q) as [arg rest].
  destruct (negb (streq scheme "soundcloud")); [reflexivity|].
  match goal with
  | |- context [match ?u with Some _ => _ | None => _ end] =>
      destruct u as [url|] eqn:U; [|reflexivity]
  end.
  apply request_goes_to_api in U.
  unfold soundcloud_parse_json. rewrite (A url U). reflexivity.
Qed.

Lemma append_nil_r (s : string) : (s ++ "")%string = s.
Proof. induction s as [|c r IH]; simpl; [|rewrite IH]; reflexivity. Qed.

(** X3: a page path, the same path behind soundcloud.com/ and the full
    http://soundcloud.com/ address resolve to the same request. *)
Theorem resolve_normalises_page_address path :
  g_str_has_prefix path "http://" = false ->
  g_str_has_prefix path "soundcloud.com" = false ->
  soundcloud_resolve apikey ("soundcloud.com/" ++ path)
  = soundcloud_resolve apikey path
  /\ soundcloud_resolve apikey ("http://soundcloud.com/" ++ path)
     = soundcloud_resolve apikey path.
Proof.
  intros H1 H2. unfold soundcloud_resolve. rewrite H1, H2.
  split; [reflexivity|].
  change (g_str_has_prefix ("http://soundcloud.com/" ++ path) "http://")
    with true.
  cbn [g_strconcat concat_until_null]. rewrite append_nil_r. reflexivity.
Qed.

Lemma error_or_clean rs :
  Exists (fun c => stat_is_error HAVE_YAJL1 (status c) = true) rs
  \/ Forall (fun c => stat_is_error HAVE_YAJL1 (status c) = false) rs.
Proof.
  induction rs as [|c rest [IH|IH]].
  - right. constructor.
  - left. apply Exists_cons_tl, IH.
  - destruct (stat_is_error HAVE_YAJL1 (status c)) eqn:S.
    + left. apply Exists_cons_hd, S.
    + right. constructor; assumption.
Qed.

(** X4: a provider comes back only when the stream of an API URL opened
    and the read loop ended at end of file or at a decode error, never
    after a failed read; it then lists the records in the order in which
    their objects closed. *)
Theorem provider_only_from_finished_stream Open g uri p :
  soundcloud_open_uri apikey HAVE_YAJL1 Open g uri = Some p ->
  exists url stream,
    String.prefix api_host url = true
    /\ Open url = Some stream
    /\ (decode_error_in HAVE_YAJL1 stream
        \/ exists c, ending stream = at_eof c)
    /\ p = in_document_order apikey
             (events_delivered HAVE_YAJL1 (reads stream) (ending stream))
             (initial_data g).
Proof.
  unfold soundcloud_open_uri.
  destruct (cut_scheme uri) as [scheme q].
  destruct (cut_slash q) as [arg rest].
  destruct (negb (streq scheme "soundcloud")); [discriminate|].
  match goal with
  | |- context [match ?u with Some _ => _ | None => _ end] =>
      destruct u as [url|] eqn:U; [|discriminate]
  end.
  apply request_goes_to_api in U.
  unfold soundcloud_parse_json.
  destruct (Open url) as [stream|] eqn:HO; [|simpl; discriminate].
  pose proof (read_loop_state apikey HAVE_YAJL1 (reads stream)
                (ending stream) (initial_data g)) as HS.
  pose proof (read_loop_ret apikey HAVE_YAJL1 (reads stream)
                (ending stream) (initial_data g)) as HR.
  destruct (read_loop apikey HAVE_YAJL1 (reads stream) (ending stream)
              (initial_data g)) as [ret data].
  simpl in HS, HR.
  destruct (Z.eqb_spec ret (-1)) as [_|N]; [discriminate|].
  intros E. injection E as <-.
  exists url, stream. split; [exact U|]. split; [exact HO|]. split.
  - destruct (ending stream) as [c|] eqn:En; [right; eauto|].
    left. unfold decode_error_in.
    destruct (error_or_clean (reads stream)) as [X|X]; [exact X|].
    exfalso. apply N, HR. split; [exact X | reflexivity].
  - rewrite HS, songs_deliver. simpl. rewrite app_nil_r.
    apply rev_involutive.
Qed.

End SoundCloudURIs.

Section SoundCloudEvents.

Local Open Scope Z_scope.

Variable apikey : option string.
Variable HAVE_YAJL1 : bool.

(** *** Keys *)

Lemma code_eq (a b : ascii) :
  Z.of_nat (nat_of_ascii a) = Z.of_nat (nat_of_ascii b) -> a = b.
Proof.
  intros E. rewrite <- (ascii_nat_embedding a), <- (ascii_nat_embedding b).
  f_equal. lia.
Qed.

Lemma strncmp_is_prefix k : forall name,
  strchr k zero = None ->
  (strncmp k name (String.length k) =? 0) = String.prefix k name.
Proof.
  induction k as [|c r IH]; intros name Hz; [destruct name; reflexivity|].
  simpl in Hz. destruct (Ascii.eqb_spec c zero) as [|Hc]; [discriminate|].
  destruct (strchr r zero) eqn:Hr; [discriminate|].
  cbn [String.length strncmp peek advance].
  assert (Nz : Z.of_nat (nat_of_ascii c) <> 0).
  { intros E. apply Hc. apply code_eq. exact E. }
  destruct name as [|x n]; cbn [peek advance String.prefix].
  - destruct (Z.eqb_spec (Z.of_nat (nat_of_ascii c)) 0) as [E|_];
      [contradiction|].
    cbn [negb]. apply Z.eqb_neq. lia.
  - destruct (Z.eqb_spec (Z.of_nat (nat_of_ascii c))
                (Z.of_nat (nat_of_ascii x))) as [E|E]; cbn [negb].
    + apply code_eq in E. subst x.
      destruct (Z.eqb_spec (Z.of_nat (nat_of_ascii c)) 0) as [E0|_];
        [contradiction|].
      destruct (ascii_dec c c) as [_|N]; [|contradiction].
      apply IH. reflexivity.
    + destruct (ascii_dec c x) as [->|_]; [contradiction|].
      apply Z.eqb_neq. lia.
Qed.

(** X8: for a key without NUL bytes, [handle_mapkey] selects the first
    of duration, title and stream_url that the key is a prefix of, and
    [Other] when it is a prefix of none. *)
Theorem mapkey_selects_by_prefix k d :
  strchr k zero = None ->
  key (handle_mapkey k d) = field_by_prefix k.
Proof.
  intros Hz. unfold handle_mapkey, set_key, field_by_prefix.
  cbn [key key_str mapkey_loop].
  rewrite !(strncmp_is_prefix k _ Hz).
  change (0 <? Other) with true. change (0 + 1 <? Other) with true.
  change (0 + 1 + 1 <? Other) with true. cbn iota.
  destruct (String.prefix k "duration"); [reflexivity|].
  destruct (String.prefix k "title"); [reflexivity|].
  destruct (String.prefix k "stream_url"); reflexivity.
Qed.

(** *** Nesting *)

Lemma leaf_keeps_record e d :
  is_map_bracket e = false -> names_url e = false ->
  key d <> Stream_URL ->
  let d' := parse_callbacks apikey e d in
  got_url d' = got_url d /\ songs d' = songs d
  /\ stream_url d' = stream_url d /\ key d' <> Stream_URL.
Proof.
  intros B U K. destruct e; try discriminate; simpl;
    try (repeat split; assumption).
  - unfold handle_integer. destruct (key d =? Duration); simpl;
      repeat split; assumption.
  - unfold handle_string.
    destruct (key d =? Title); [simpl; repeat split; assumption|].
    destruct (Z.eqb_spec (key d) Stream_URL) as [E|_]; [contradiction|].
    repeat split; assumption.
  - simpl in U. apply Z.eqb_neq in U.
    unfold handle_mapkey, set_key. cbn [got_url songs stream_url key].
    repeat split; assumption.
Qed.

Lemma int_wrap_small z : -2 ^ 31 <= z < 2 ^ 31 -> int_wrap z = z.
Proof.
  intros R. unfold int_wrap. rewrite Z.mod_small; lia.
Qed.

(** Inside an open record, a run of complete objects and scalars that
    names no stream_url leaves the record open at the same depth. *)
Lemma balanced_keeps_record es :
  balanced es -> forall d,
  no_url_key es ->
  key d <> Stream_URL ->
  0 < got_url d ->
  got_url d + Z.of_nat (length es) < 2 ^ 31 ->
  let d' := deliver apikey es d in
  got_url d' = got_url d /\ songs d' = songs d
  /\ stream_url d' = stream_url d /\ key d' <> Stream_URL.
Proof.
  induction 1 as [|e es B _ IH|inner es _ IH1 _ IH2]; intros d U K G L.
  - repeat split; assumption.
  - inversion U as [|? ? Ue Ues]; subst.
    destruct (leaf_keeps_record e d B Ue K) as (A1 & A2 & A3 & A4).
    cbn [length] in L.
    destruct (IH (parse_callbacks apikey e d) Ues A4) as (B1 & B2 & B3 & B4).
    { rewrite A1. exact G. }
    { rewrite A1. lia. }
    change (deliver apikey (e :: es) d)
      with (deliver apikey es (parse_callbacks apikey e d)).
    cbv zeta. rewrite B1, B2, B3, A1, A2, A3. repeat split; assumption.
  - inversion U as [|? ? _ U']; subst.
    apply Forall_app in U'. destruct U' as [Ui U'].
    inversion U' as [|? ? _ Ues]; subst.
    cbn [length] in L. rewrite length_app in L. cbn [length] in L.
    change (deliver apikey (yajl_start_map :: inner ++ yajl_end_map :: es) d)
      with (deliver apikey (inner ++ yajl_end_map :: es)
              (handle_start_map d)).
    rewrite deliver_app.
    change (deliver apikey (yajl_end_map :: es) ?x)
      with (deliver apikey es (handle_end_map apikey x)).
    set (d1 := handle_start_map d).
    assert (D1 : got_url d1 = got_url d + 1 /\ songs d1 = songs d
                 /\ stream_url d1 = stream_url d /\ key d1 = key d).
    { unfold d1, handle_start_map.
      destruct (Z.gtb_spec (got_url d) 0) as [_|N]; [|lia].
      simpl. rewrite int_wrap_small by lia. repeat split. }
    destruct D1 as (C1 & C2 & C3 & C4).
    destruct (IH1 d1 Ui) as (E1 & E2 & E3 & E4);
      [rewrite C4; exact K | lia | lia |].
    set (d2 := deliver apikey inner d1) in *.
    set (d3 := handle_end_map apikey d2).
    assert (D3 : got_url d3 = got_url d /\ songs d3 = songs d
                 /\ stream_url d3 = stream_url d /\ key d3 = key d2).
    { unfold d3, handle_end_map.
      destruct (Z.gtb_spec (got_url d2) 1) as [_|N]; [|lia].
      simpl. repeat split; try congruence. lia. }
    destruct D3 as (F1 & F2 & F3 & F4).
    destruct (IH2 d3 Ues) as (G1 & G2 & G3 & G4);
      [rewrite F4; exact E4 | lia | lia |].
    cbv zeta. rewrite G1, G2, G3. repeat split; congruence.
Qed.

(** Part of the way through such a run, the record is still open and
    nothing has been emitted. *)
Lemma balanced_prefix_keeps_record es :
  balanced es -> forall d seen coming,
  es = seen ++ coming ->
  no_url_key es ->
  key d <> Stream_URL ->
  0 < got_url d ->
  got_url d + Z.of_nat (length es) < 2 ^ 31 ->
  songs (deliver apikey seen d) = songs d
  /\ got_url d <= got_url (deliver apikey seen d).
Proof.
  induction 1 as [|e es B _ IH|inner es Bi IH1 _ IH2];
    intros d seen coming Hs U K G L.
  - symmetry in Hs. apply app_eq_nil in Hs. destruct Hs as [-> _].
    split; [reflexivity | simpl; lia].
  - destruct seen as [|x seen']; [split; [reflexivity | simpl; lia]|].
    injection Hs as <- Hs.
    inversion U as [|? ? Ue Ues]; subst.
    destruct (leaf_keeps_record e d B Ue K) as (A1 & A2 & A3 & A4).
    cbn [length] in L.
    change (deliver apikey (e :: seen') d)
      with (deliver apikey seen' (parse_callbacks apikey e d)).
    destruct (IH (parse_callbacks apikey e d) seen' coming eq_refl Ues A4)
      as [B1 B2]; [rewrite A1; exact G | rewrite A1; lia|].
    rewrite B1, A2. split; [reflexivity | rewrite <- A1; exact B2].
  - destruct seen as [|x seen']; [split; [reflexivity | simpl; lia]|].
    injection Hs as <- Hs.
    inversion U as [|? ? _ U']; subst.
    pose proof U' as U''.
    apply Forall_app in U''. destruct U'' as [Ui Ue].
    inversion Ue as [|? ? _ Ues]; subst.
    cbn [length] in L. rewrite length_app in L. cbn [length] in L.
    change (deliver apikey (yajl_start_map :: seen') d)
      with (deliver apikey seen' (handle_start_map d)).
    set (d1 := handle_start_map d).
    assert (D1 : got_url d1 = got_url d + 1 /\ songs d1 = songs d
                 /\ key d1 = key d).
    { unfold d1, handle_start_map.
      destruct (Z.gtb_spec (got_url d) 0) as [_|N]; [|lia].
      simpl. rewrite int_wrap_small by lia. repeat split. }
    destruct D1 as (C1 & C2 & C4).
    apply app_eq_app in Hs. destruct Hs as (l & [[Hi Hc]|[Hp Hc]]).
    + destruct (IH1 d1 seen' l Hi Ui) as [E1 E2];
        [rewrite C4; exact K | lia | lia|].
      rewrite E1, C2. split; [reflexivity | lia].
    + destruct (balanced_keeps_record inner Bi d1 Ui) as (F1 & F2 & _ & F4);
        [rewrite C4; exact K | lia | lia|].
      destruct l as [|y l'].
      * rewrite app_nil_r in Hp. subst seen'.
        rewrite F1, F2, C2. split; [reflexivity | lia].
      * injection Hc as <- Hc. subst seen'.
        rewrite deliver_app.
        change (deliver apikey (yajl_end_map :: l') ?x)
          with (deliver apikey l' (handle_end_map apikey x)).
        set (d2 := deliver apikey inner d1) in *.
        set (d3 := handle_end_map apikey d2).
        assert (D3 : got_url d3 = got_url d /\ songs d3 = songs d
                     /\ key d3 = key d2).
        { unfold d3, handle_end_map.
          destruct (Z.gtb_spec (got_url d2) 1) as [_|N]; [|lia].
          simpl. repeat split; try congruence. lia. }
        destruct D3 as (G1 & G2 & G4).
        destruct (IH2 d3 l' coming Hc Ues) as [H1 H2];
          [rewrite G4; exact F4 | lia | lia|].
        rewrite H1, G2. split; [reflexivity | lia].
Qed.

(** X5: in a track object that gives its stream_url first, the members
    that follow, nested objects included, do not close the record as long
    as none of their keys is taken for stream_url: at every point among
    these members the record is still open and nothing has been emitted;
    one record, with that URL, is emitted at the closing brace of the
    track itself, and [got_url] is back at 0. *)
Theorem nested_objects_do_not_close_record u rest d :
  balanced rest ->
  no_url_key rest ->
  starts_with_key rest ->
  got_url d = 0 ->
  1 + Z.of_nat (length rest) < 2 ^ 31 ->
  (forall seen coming,
      rest = seen ++ coming ->
      let dm := deliver apikey
                  (yajl_start_map :: yajl_map_key "stream_url"
                     :: yajl_string u :: seen) d in
      songs dm = songs d /\ 0 < got_url dm)
  /\ let d' := deliver apikey
                 (yajl_start_map :: yajl_map_key "stream_url" :: yajl_string u
                    :: rest ++ [yajl_end_map]) d in
     got_url d' = 0
     /\ exists t,
          songs d'
          = mkSong (Some (concat_until_null
                            [Some (c_str u); Some "?client_id="%string;
                             apikey]))
                   t
            :: songs d.
Proof.
  intros B U S G L.
  set (d0 := handle_string u (handle_mapkey "stream_url"
                                (handle_start_map d))).
  assert (D0 : got_url d0 = 1 /\ songs d0 = songs d
               /\ stream_url d0 = Some (c_str u)).
  { unfold d0, handle_start_map. rewrite G. repeat split. }
  destruct D0 as (A1 & A2 & A3).
  split.
  - intros seen coming Hs.
    change (deliver apikey
              (yajl_start_map :: yajl_map_key "stream_url" :: yajl_string u
                 :: seen) d)
      with (deliver apikey seen d0).
    cbv zeta.
    destruct seen as [|e seen'].
    { change (deliver apikey [] d0) with d0. rewrite A1, A2.
      split; [reflexivity | lia]. }
    subst rest. cbn [app] in B, U, S, L. destruct e; try contradiction.
    inversion B as [|? ? _ B'|]; subst.
    inversion U as [|? ? Ue U']; subst.
    change (deliver apikey (yajl_map_key s :: seen') d0)
      with (deliver apikey seen' (handle_mapkey s d0)).
    simpl in Ue. apply Z.eqb_neq in Ue. cbn [length] in L.
    destruct (balanced_prefix_keeps_record (seen' ++ coming) B'
                (handle_mapkey s d0) seen' coming eq_refl U')
      as [P1 P2].
    + exact Ue.
    + unfold handle_mapkey, set_key. cbn [got_url]. lia.
    + unfold handle_mapkey, set_key. cbn [got_url]. lia.
    + rewrite P1. unfold handle_mapkey, set_key in P2 |- *.
      cbn [got_url songs] in P2 |- *. split; [exact A2 | lia].
  - change (deliver apikey
              (yajl_start_map :: yajl_map_key "stream_url" :: yajl_string u
                 :: rest ++ [yajl_end_map]) d)
      with (deliver apikey (rest ++ [yajl_end_map]) d0).
    rewrite deliver_app.
    assert (R : got_url (deliver apikey rest d0) = 1
                /\ songs (deliver apikey rest d0) = songs d
                /\ stream_url (deliver apikey rest d0) = Some (c_str u)).
    { destruct rest as [|e rest']; [repeat split; assumption|].
      destruct e; try contradiction.
      inversion B as [|? ? _ B'|]; subst.
      inversion U as [|? ? Ue U']; subst.
      change (deliver apikey (yajl_map_key s :: rest') d0)
        with (deliver apikey rest' (handle_mapkey s d0)).
      simpl in Ue. apply Z.eqb_neq in Ue. cbn [length] in L.
      destruct (balanced_keeps_record rest' B' (handle_mapkey s d0) U')
        as (B1 & B2 & B3 & _).
      - exact Ue.
      - unfold handle_mapkey, set_key. cbn [got_url]. lia.
      - unfold handle_mapkey, set_key. cbn [got_url]. lia.
      - rewrite B1, B2, B3. unfold handle_mapkey, set_key.
        cbn [got_url songs stream_url]. repeat split; assumption. }
    destruct R as (B1 & B2 & B3).
    set (d1 := deliver apikey rest d0) in *.
    change (deliver apikey [yajl_end_map] d1) with (handle_end_map apikey d1).
    cbv zeta. unfold handle_end_map.
    destruct (Z.gtb_spec (got_url d1) 1) as [C|_]; [lia|].
    destruct (Z.eqb_spec (got_url d1) 0) as [C|_]; [lia|].
    cbn [got_url songs emplace_front set_got_url stream_url duration title].
    split; [reflexivity|].
    rewrite B3, B2. eexists. reflexivity.
Qed.

(** *** Counting records *)

Lemma count_callback e d :
  (length (songs (parse_callbacks apikey e d))
   + open_records (parse_callbacks apikey e d)
   <= length (songs d) + open_records d + (if is_string e then 1 else 0))%nat
  /\ (length (songs (parse_callbacks apikey e d))
      <= length (songs d) + (if is_end_map e then 1 else 0))%nat.
Proof.
  unfold open_records.
  destruct e; simpl; try (split; lia).
  - unfold handle_integer. destruct (key d =? Duration); simpl; split; lia.
  - unfold handle_string.
    destruct (key d =? Title); [simpl; split; lia|].
    destruct (key d =? Stream_URL); simpl; [|split; lia].
    destruct (got_url d =? 0); split; lia.
  - unfold handle_start_map.
    destruct (Z.gtb_spec (got_url d) 0) as [G|G]; simpl; [|split; lia].
    destruct (Z.eqb_spec (got_url d) 0) as [E|_]; [lia|].
    destruct (int_wrap (got_url d + 1) =? 0); split; lia.
  - unfold handle_end_map.
    destruct (Z.gtb_spec (got_url d) 1) as [G|G]; simpl.
    + destruct (Z.eqb_spec (got_url d - 1) 0) as [E|_]; [lia|].
      destruct (Z.eqb_spec (got_url d) 0) as [E|_]; [lia|]. split; lia.
    + destruct (Z.eqb_spec (got_url d) 0) as [E|E]; simpl.
      * rewrite E. simpl. split; lia.
      * split; lia.
Qed.

Lemma count_deliver es : forall d,
  (length (songs (deliver apikey es d)) + open_records (deliver apikey es d)
   <= length (songs d) + open_records d + length (List.filter is_string es))%nat
  /\ (length (songs (deliver apikey es d))
      <= length (songs d) + length (List.filter is_end_map es))%nat.
Proof.
  induction es as [|e rest IH]; intros d; [simpl; split; lia|].
  change (deliver apikey (e :: rest) d)
    with (deliver apikey rest (parse_callbacks apikey e d)).
  destruct (IH (parse_callbacks apikey e d)) as [I1 I2].
  destruct (count_callback e d) as [C1 C2].
  cbn [List.filter].
  destruct (is_string e), (is_end_map e); cbn [length]; split; lia.
Qed.

(** X6: whatever the document, the extractor emits no more records than
    it was handed string values, and no more than objects were closed. *)
Theorem records_bounded_by_events es g :
  (length (songs (deliver apikey es (initial_data g)))
   <= length (List.filter is_string es))%nat
  /\ (length (songs (deliver apikey es (initial_data g)))
      <= length (List.filter is_end_map es))%nat.
Proof.
  destruct (count_deliver es (initial_data g)) as [A B].
  unfold open_records in A. simpl in A, B. split; lia.
Qed.

(** *** Chunking *)

(** X7: how the bytes of a document are cut into reads does not matter:
    two streams that end at end of file, none of whose reads makes the
    decoder report an error (with YAJL 1 a read may well answer
    [yajl_status_insufficient_data]), and that fire the same callbacks
    overall leave [soundcloud_parse_json] with the same return value and
    the same parser state. *)
Theorem chunking_is_irrelevant Open1 Open2 url rs1 c1 rs2 c2 d :
  Open1 url = Some (mkStream rs1 (at_eof c1)) ->
  Open2 url = Some (mkStream rs2 (at_eof c2)) ->
  no_decode_error HAVE_YAJL1 rs1 -> no_decode_error HAVE_YAJL1 rs2 ->
  concat (map fired rs1) ++ fired c1 = concat (map fired rs2) ++ fired c2 ->
  soundcloud_parse_json apikey HAVE_YAJL1 Open1 url d
  = soundcloud_parse_json apikey HAVE_YAJL1 Open2 url d.
Proof.
  intros O1 O2 K1 K2 E. unfold soundcloud_parse_json.
  rewrite O1, O2. cbn [reads ending].
  assert (R : forall rs c, no_decode_error HAVE_YAJL1 rs ->
            read_loop apikey HAVE_YAJL1 rs (at_eof c) d
            = (0, deliver apikey (concat (map fired rs) ++ fired c) d)).
  { intros rs c K.
    pose proof (read_loop_state apikey HAVE_YAJL1 rs (at_eof c) d) as S.
    pose proof (read_loop_ret apikey HAVE_YAJL1 rs (at_eof c) d) as T.
    destruct (read_loop_ret_cases apikey HAVE_YAJL1 rs (at_eof c) d) as [Z0|M].
    - rewrite (events_delivered_clean HAVE_YAJL1 rs c K) in S.
      destruct (read_loop apikey HAVE_YAJL1 rs (at_eof c) d) as [ret data].
      simpl in S, Z0. subst. reflexivity.
    - apply T in M. destruct M as [_ M]. discriminate. }
  rewrite (R rs1 c1 K1), (R rs2 c2 K2), E. reflexivity.
Qed.

End SoundCloudEvents.

(** ** More facts about the registry *)

Import Paths.

Section RegistryProbes.

Context `{External}.
Variable playlist_plugins : list playlist_plugin.
Variable playlist_plugins_enabled : list bool.

Lemma ascending_weaken l : forall lo lo',
  lo' <= lo -> ascending lo l -> ascending lo' l.
Proof. destruct l; simpl; intros lo lo' L A; [exact I|]. split; [lia|tauto]. Qed.

Lemma first_success_cons r oks :
  first_success r oks -> first_success r (false :: oks).
Proof. intros [k ->]. exists (S k). reflexivity. Qed.

Lemma first_success_app a r b :
  first_success false a -> first_success r b -> first_success r (a ++ b).
Proof.
  intros [k ->] [m ->]. exists (k + m). rewrite app_nil_r.
  rewrite replicate_add, <- app_assoc. reflexivity.
Qed.

Lemma slot_of_split (pre : list playlist_plugin) plugin rest i :
  playlist_plugins = pre ++ plugin :: rest -> i = length pre ->
  playlist_plugins !! i = Some plugin
  /\ playlist_plugins = (pre ++ [plugin]) ++ rest
  /\ S i = length (pre ++ [plugin]).
Proof.
  intros -> ->. split; [apply list_lookup_middle; reflexivity|].
  split; [rewrite <- app_assoc; reflexivity|].
  rewrite length_app. simpl. lia.
Qed.

Lemma probed_of_eligible {F : Type} (entry : playlist_plugin -> option F)
    names needle usable i plugin f :
  playlist_plugins !! i = Some plugin ->
  eligible usable (entry plugin) (names plugin) needle = Some f ->
  (usable = true -> flag playlist_plugins_enabled i = true) ->
  probed_plugin playlist_plugins playlist_plugins_enabled entry names needle i.
Proof.
  intros L E U. apply eligible_Some in E.
  destruct E as (Hu & He & l & Hn & Hc).
  split; [exact (U Hu)|]. exists plugin, f, l. auto.
Qed.

(** The scheme loop probes eligible slots in table order and stops at the
    first success. *)
Lemma scheme_loop_shape ps : forall pre i uri scheme tried w r t w' tr,
  playlist_plugins = pre ++ ps -> i = length pre ->
  open_uri_scheme_from playlist_plugins_enabled i ps uri scheme tried w
  = (r, t, w', tr) ->
  exists probes,
    tr = uri_probes by_scheme probes
    /\ ascending i (map fst probes)
    /\ first_success (found r) (map snd probes)
    /\ Forall (fun p => probed_plugin playlist_plugins
                          playlist_plugins_enabled open_uri schemes scheme
                          (fst p)) probes.
Proof.
  induction ps as [|plugin rest IH];
    intros pre i uri scheme tried w r t w' tr Hs Hi E.
  - injection E as <- <- <- <-. exists [].
    split; [reflexivity|]. split; [exact I|].
    split; [exists 0; reflexivity | constructor].
  - destruct (slot_of_split pre plugin rest i Hs Hi) as (L & Hs' & Hi').
    cbn [open_uri_scheme_from] in E.
    destruct (eligible (flag playlist_plugins_enabled i) (open_uri plugin)
                (schemes plugin) scheme) as [f|] eqn:El.
    + pose proof (probed_of_eligible open_uri schemes scheme _ i plugin f L El
                    (fun U => U)) as P.
      destruct (f uri w) as [[playlist|] w1].
      * injection E as <- <- <- <-. exists [(i, true)].
        split; [reflexivity|]. split; [simpl; split; [lia | exact I]|].
        split; [exists 0; reflexivity | constructor; [exact P | constructor]].
      * destruct (open_uri_scheme_from playlist_plugins_enabled (S i) rest uri
                    scheme (<[i := true]> tried) w1)
          as [[[r0 t0] w0] tr0] eqn:E0.
        injection E as <- <- <- <-.
        destruct (IH _ _ _ _ _ _ _ _ _ _ Hs' Hi' E0) as (probes & -> & A & FS & Q).
        exists ((i, false) :: probes).
        split; [reflexivity|]. split; [simpl; split; [lia | exact A]|].
        split; [apply first_success_cons, FS | constructor; assumption].
    + destruct (IH _ _ _ _ _ _ _ _ _ _ Hs' Hi' E) as (probes & -> & A & FS & Q).
      exists probes. split; [reflexivity|].
      split; [apply (ascending_weaken _ (S i)); [lia | exact A]|].
      split; assumption.
Qed.

Lemma suffix_loop_shape ps : forall pre i uri suffix tried w r w' tr,
  playlist_plugins = pre ++ ps -> i = length pre ->
  open_uri_suffix_from playlist_plugins_enabled i ps uri suffix tried w
  = (r, w', tr) ->
  exists probes,
    tr = uri_probes by_suffix probes
    /\ ascending i (map fst probes)
    /\ first_success (found r) (map snd probes)
    /\ Forall (fun p => probed_plugin playlist_plugins
                          playlist_plugins_enabled open_uri suffixes suffix
                          (fst p)) probes.
Proof.
  induction ps as [|plugin rest IH];
    intros pre i uri suffix tried w r w' tr Hs Hi E.
  - injection E as <- <- <-. exists [].
    split; [reflexivity|]. split; [exact I|].
    split; [exists 0; reflexivity | constructor].
  - destruct (slot_of_split pre plugin rest i Hs Hi) as (L & Hs' & Hi').
    cbn [open_uri_suffix_from] in E.
    destruct (eligible (flag playlist_plugins_enabled i && negb (flag tried i))
                (open_uri plugin) (suffixes plugin) suffix) as [f|] eqn:El.
    + assert (P : probed_plugin playlist_plugins playlist_plugins_enabled
                    open_uri suffixes suffix i).
      { apply (probed_of_eligible open_uri suffixes suffix _ i plugin f L El).
        intros U. apply andb_true_iff in U. tauto. }
      destruct (f uri w) as [[playlist|] w1].
      * injection E as <- <- <-. exists [(i, true)].
        split; [reflexivity|]. split; [simpl; split; [lia | exact I]|].
        split; [exists 0; reflexivity | constructor; [exact P | constructor]].
      * destruct (open_uri_suffix_from playlist_plugins_enabled (S i) rest uri
                    suffix tried w1) as [[r0 w0] tr0] eqn:E0.
        injection E as <- <- <-.
        destruct (IH _ _ _ _ _ _ _ _ _ Hs' Hi' E0) as (probes & -> & A & FS & Q).
        exists ((i, false) :: probes).
        split; [reflexivity|]. split; [simpl; split; [lia | exact A]|].
        split; [apply first_success_cons, FS | constructor; assumption].
    + destruct (IH _ _ _ _ _ _ _ _ _ Hs' Hi' E) as (probes & -> & A & FS & Q).
      exists probes. split; [reflexivity|].
      split; [apply (ascending_weaken _ (S i)); [lia | exact A]|].
      split; assumption.
Qed.

Lemma stream_loop_shape via names needle ps : forall pre i w r w' tr,
  playlist_plugins = pre ++ ps -> i = length pre ->
  open_stream_from playlist_plugins_enabled via names i ps needle w
  = (r, w', tr) ->
  exists probes,
    tr = stream_probes via probes
    /\ ascending i (map fst probes)
    /\ first_success (found r) (map snd probes)
    /\ Forall (fun p => probed_plugin playlist_plugins
                          playlist_plugins_enabled open_stream names needle
                          (fst p)) probes.
Proof.
  induction ps as [|plugin rest IH]; intros pre i w r w' tr Hs Hi E.
  - injection E as <- <- <-. exists [].
    split; [reflexivity|]. split; [exact I|].
    split; [exists 0; reflexivity | constructor].
  - destruct (slot_of_split pre plugin rest i Hs Hi) as (L & Hs' & Hi').
    cbn [open_stream_from] in E.
    destruct (eligible (flag playlist_plugins_enabled i) (open_stream plugin)
                (names plugin) needle) as [f|] eqn:El.
    + pose proof (probed_of_eligible open_stream names needle _ i plugin f L El
                    (fun U => U)) as P.
      destruct (f (Seek w)) as [[playlist|] w1].
      * injection E as <- <- <-. exists [(i, true)].
        split; [reflexivity|]. split; [simpl; split; [lia | exact I]|].
        split; [exists 0; reflexivity | constructor; [exact P | constructor]].
      * destruct (open_stream_from playlist_plugins_enabled via names (S i)
                    rest needle w1) as [[r0 w0] tr0] eqn:E0.
        injection E as <- <- <-.
        destruct (IH _ _ _ _ _ _ Hs' Hi' E0) as (probes & -> & A & FS & Q).
        exists ((i, false) :: probes).
        split; [reflexivity|]. split; [simpl; split; [lia | exact A]|].
        split; [apply first_success_cons, FS | constructor; assumption].
    + destruct (IH _ _ _ _ _ _ Hs' Hi' E) as (probes & -> & A & FS & Q).
      exists probes. split; [reflexivity|].
      split; [apply (ascending_weaken _ (S i)); [lia | exact A]|].
      split; assumption.
Qed.

(** X9: one call of [playlist_list_open_uri] makes a run of scheme probes
    and then a run of suffix probes, each over slots in rising table
    order; every probed slot holds an enabled plugin with an [open_uri]
    that lists the scheme (or suffix) of the URI; all probes fail except
    possibly the last, and a provider is returned exactly when the last
    one succeeds. *)
Theorem open_uri_probes_in_table_order uri w r w' tr :
  playlist_list_open_uri playlist_plugins playlist_plugins_enabled uri w
  = (r, w', tr) ->
  exists by_scheme_probes by_suffix_probes,
    tr = uri_probes by_scheme by_scheme_probes
         ++ uri_probes by_suffix by_suffix_probes
    /\ ascending 0 (map fst by_scheme_probes)
    /\ ascending 0 (map fst by_suffix_probes)
    /\ first_success (found r)
         (map snd (by_scheme_probes ++ by_suffix_probes))
    /\ (forall p, In p by_scheme_probes ->
          exists scheme,
            g_uri_parse_scheme uri = Some scheme
            /\ probed_plugin playlist_plugins playlist_plugins_enabled
                 open_uri schemes scheme (fst p))
    /\ (forall p, In p by_suffix_probes ->
          exists suffix,
            uri_get_suffix uri = Some suffix
            /\ probed_plugin playlist_plugins playlist_plugins_enabled
                 open_uri suffixes suffix (fst p)).
Proof.
  unfold playlist_list_open_uri.
  destruct (playlist_list_open_uri_scheme playlist_plugins
              playlist_plugins_enabled uri
              (replicate (length playlist_plugins) false) w)
    as [[[r1 t1] w1] tr1] eqn:E1.
  assert (S1 : exists probes,
             tr1 = uri_probes by_scheme probes
             /\ ascending 0 (map fst probes)
             /\ first_success (found r1) (map snd probes)
             /\ forall p, In p probes ->
                  exists scheme,
                    g_uri_parse_scheme uri = Some scheme
                    /\ probed_plugin playlist_plugins playlist_plugins_enabled
                         open_uri schemes scheme (fst p)).
  { unfold playlist_list_open_uri_scheme in E1.
    destruct (g_uri_parse_scheme uri) as [scheme|].
    - destruct (scheme_loop_shape playlist_plugins [] 0 _ _ _ _ _ _ _ _
                  eq_refl eq_refl E1) as (probes & T & A & FS & Q).
      exists probes. split; [exact T|]. split; [exact A|]. split; [exact FS|].
      intros p Hp. exists scheme. split; [reflexivity|].
      rewrite List.Forall_forall in Q. apply Q, Hp.
    - injection E1 as <- <- <- <-. exists [].
      split; [reflexivity|]. split; [exact I|].
      split; [exists 0; reflexivity | intros ? []]. }
  destruct S1 as (p1 & T1 & A1 & S1 & Q1).
  destruct r1 as [playlist|].
  - intros E. injection E as <- <- <-. exists p1, []. simpl.
    rewrite !app_nil_r.
    split; [exact T1|]. split; [exact A1|]. split; [exact I|].
    split; [exact S1|]. split; [exact Q1 | intros ? []].
  - destruct (playlist_list_open_uri_suffix playlist_plugins
                playlist_plugins_enabled uri t1 w1) as [[r2 w2] tr2] eqn:E2.
    intros E. injection E as <- <- <-.
    assert (S2 : exists probes,
               tr2 = uri_probes by_suffix probes
               /\ ascending 0 (map fst probes)
               /\ first_success (found r2) (map snd probes)
               /\ forall p, In p probes ->
                    exists suffix,
                      uri_get_suffix uri = Some suffix
                      /\ probed_plugin playlist_plugins
                           playlist_plugins_enabled open_uri suffixes suffix
                           (fst p)).
    { unfold playlist_list_open_uri_suffix in E2.
      destruct (uri_get_suffix uri) as [suffix|].
      - destruct (suffix_loop_shape playlist_plugins [] 0 _ _ _ _ _ _ _
                    eq_refl eq_refl E2) as (probes & T & A & FS & Q).
        exists probes. split; [exact T|]. split; [exact A|]. split; [exact FS|].
        intros p Hp. exists suffix. split; [reflexivity|].
        rewrite List.Forall_forall in Q. apply Q, Hp.
      - injection E2 as <- <- <-. exists [].
        split; [reflexivity|]. split; [exact I|].
        split; [exists 0; reflexivity | intros ? []]. }
    destruct S2 as (p2 & T2 & A2 & S2 & Q2).
    exists p1, p2. rewrite T1, T2, map_app.
    split; [reflexivity|]. split; [exact A1|]. split; [exact A2|].
    split; [apply first_success_app; assumption|].
    split; assumption.
Qed.

End RegistryProbes.

Section RegistryResolution.

Context `{External}.
Variable input_stream_Open : string -> W -> bool * W.
Variable Close : W -> W.
Variable playlist_plugins : list playlist_plugin.
Variable playlist_plugins_enabled : list bool.





Lemma scheme_first_eligible uri scheme ps :
  forall i k plugin f playlist tried w w',
    ps !! k = Some plugin ->
    eligible (flag playlist_plugins_enabled (i + k)) (open_uri plugin)
      (schemes plugin) scheme = Some f ->
    (forall k' q, k' < k -> ps !! k' = Some q ->
       eligible (flag playlist_plugins_enabled (i + k')) (open_uri q)
         (schemes q) scheme = None) ->
    f uri w = (Some playlist, w') ->
    open_uri_scheme_from playlist_plugins_enabled i ps uri scheme tried w
    = (Some playlist, tried, w', [call_open_uri by_scheme (i + k) true]).
Proof.
  induction ps as [|q rest IH];
    intros i k plugin f playlist tried w w' Hk He Hb Hf; [discriminate|].
  destruct k as [|k]; simpl in Hk.
  - injection Hk as ->. rewrite Nat.add_0_r in He |- *.
    cbn [open_uri_scheme_from]. rewrite He, Hf. reflexivity.
  - cbn [open_uri_scheme_from].
    pose proof (Hb 0 q ltac:(lia) eq_refl) as H0.
    rewrite Nat.add_0_r in H0. rewrite H0.
    replace (i + S k) with (S i + k) in * by lia.
    eapply IH; eauto.
    intros k' q' Hlt Hq.
    specialize (Hb (S k') q' ltac:(lia) Hq).
    replace (i + S k') with (S i + k') in Hb by lia. exact Hb.
Qed.

(** X11: when the first plugin that is enabled, has [open_uri] and lists
    the scheme of the URI opens it, [playlist_list_open_uri] returns its
    provider after this single probe; no other plugin is asked and the
    suffix of the URI plays no part. *)
Theorem scheme_match_wins uri scheme j plugin f l playlist w w' :
  g_uri_parse_scheme uri = Some scheme ->
  playlist_plugins !! j = Some plugin ->
  flag playlist_plugins_enabled j = true ->
  open_uri plugin = Some f ->
  schemes plugin = Some l ->
  string_array_contains l scheme = true ->
  (forall k q, k < j -> playlist_plugins !! k = Some q ->
     eligible (flag playlist_plugins_enabled k) (open_uri q) (schemes q)
       scheme = None) ->
  f uri w = (Some playlist, w') ->
  playlist_list_open_uri playlist_plugins playlist_plugins_enabled uri w
  = (Some playlist, w', [call_open_uri by_scheme j true]).
Proof.
  intros G L En Ho Hs Hc Hb Hf.
  unfold playlist_list_open_uri, playlist_list_open_uri_scheme. rewrite G.
  rewrite (scheme_first_eligible uri scheme playlist_plugins 0 j plugin f
             playlist _ w w'); auto.
  unfold eligible. cbn [Nat.add]. rewrite En, Ho, Hs, Hc. reflexivity.
Qed.

Lemma scheme_none_eligible uri scheme ps : forall i tried w,
  (forall k q, ps !! k = Some q ->
     eligible (flag playlist_plugins_enabled (i + k)) (open_uri q)
       (schemes q) scheme = None) ->
  open_uri_scheme_from playlist_plugins_enabled i ps uri scheme tried w
  = (None, tried, w, []).
Proof.
  induction ps as [|q rest IH]; intros i tried w Hn; [reflexivity|].
  cbn [open_uri_scheme_from].
  pose proof (Hn 0 q eq_refl) as H0. rewrite Nat.add_0_r in H0. rewrite H0.
  apply IH. intros k q' Hq. specialize (Hn (S k) q' Hq).
  replace (i + S k) with (S i + k) in Hn by lia. exact Hn.
Qed.

(** X12: a URI without scheme, or with a scheme no enabled URI plugin
    lists, is resolved by its suffix alone, with no plugin excluded. *)
Theorem unclaimed_scheme_falls_back_to_suffix uri w :
  (forall scheme,
      g_uri_parse_scheme uri = Some scheme ->
      none_eligible playlist_plugins playlist_plugins_enabled open_uri schemes
        scheme) ->
  playlist_list_open_uri playlist_plugins playlist_plugins_enabled uri w
  = playlist_list_open_uri_suffix playlist_plugins playlist_plugins_enabled
      uri (replicate (length playlist_plugins) false) w.
Proof.
  intros N. unfold playlist_list_open_uri, playlist_list_open_uri_scheme.
  assert (E : match g_uri_parse_scheme uri with
              | Some scheme =>
                  open_uri_scheme_from playlist_plugins_enabled 0
                    playlist_plugins uri scheme
                    (replicate (length playlist_plugins) false) w
              | None =>
                  (None, replicate (length playlist_plugins) false, w, [])
              end
              = (None, replicate (length playlist_plugins) false, w, [])).
  { destruct (g_uri_parse_scheme uri) as [scheme|]; [|reflexivity].
    apply scheme_none_eligible. intros k q Hq. exact (N scheme eq_refl k q Hq). }
  rewrite E.
  destruct (playlist_list_open_uri_suffix playlist_plugins
              playlist_plugins_enabled uri
              (replicate (length playlist_plugins) false) w) as [[r2 w2] tr2].
  reflexivity.
Qed.

(** *** Local paths *)

(** X13: [playlist_suffix_supported] holds exactly when some enabled
    plugin lists the suffix, whether or not that plugin can open
    streams. *)
Theorem suffix_supported_iff suffix :
  playlist_suffix_supported playlist_plugins playlist_plugins_enabled suffix
  = true
  <-> exists j plugin l,
        playlist_plugins !! j = Some plugin
        /\ flag playlist_plugins_enabled j = true
        /\ suffixes plugin = Some l
        /\ string_array_contains l suffix = true.
Proof.
  unfold playlist_suffix_supported. rewrite existsb_exists. split.
  - intros ([j plugin] & Hin & Hb).
    apply list_elem_of_In, elem_of_lookup_imap in Hin.
    destruct Hin as (i & y & E & L). injection E as -> ->.
    apply andb_true_iff in Hb. destruct Hb as [En Hs].
    destruct (suffixes y) as [l|] eqn:S; [|discriminate].
    exists i, y, l. auto.
  - intros (j & plugin & l & L & En & S & C).
    exists (j, plugin). split.
    + apply list_elem_of_In, elem_of_lookup_imap. exists j, plugin. auto.
    + rewrite En, S. exact C.
Qed.

(** X14: when the path has no suffix, or no enabled plugin lists its
    suffix, [playlist_list_open_path] returns NULL without opening the
    file. *)
Theorem open_path_fails_fast path_fs w :
  (forall suffix j plugin l,
      uri_get_suffix path_fs = Some suffix ->
      playlist_plugins !! j = Some plugin ->
      flag playlist_plugins_enabled j = true ->
      suffixes plugin = Some l ->
      string_array_contains l suffix = false) ->
  playlist_list_open_path input_stream_Open Close playlist_plugins
    playlist_plugins_enabled path_fs w
  = (None, w, []).
Proof.
  intros N. unfold playlist_list_open_path.
  destruct (uri_get_suffix path_fs) as [suffix|]; [|reflexivity].
  destruct (playlist_suffix_supported playlist_plugins
              playlist_plugins_enabled suffix) eqn:S; [|reflexivity].
  apply suffix_supported_iff in S.
  destruct S as (j & plugin & l & L & En & Sf & C).
  rewrite (N suffix j plugin l eq_refl L En Sf) in C. discriminate.
Qed.

Lemma stream_probe_calls via probes c :
  In c (stream_probes via probes) ->
  c = call_seek \/ exists j ok, c = call_open_stream via j ok.
Proof.
  unfold stream_probes. rewrite in_flat_map.
  intros (p & _ & [<-|[<-|[]]]); [left; reflexivity|right; eauto].
Qed.

(** The ways [playlist_list_open_path] can go, with the world each
    leaves and the plugins it asked. *)
Lemma open_path_cases path_fs w r w' tr :
  playlist_list_open_path input_stream_Open Close playlist_plugins
    playlist_plugins_enabled path_fs w
  = (r, w', tr) ->
  (tr = [] /\ r = None /\ w' = w
   /\ (uri_get_suffix path_fs = None
       \/ exists suffix,
            uri_get_suffix path_fs = Some suffix
            /\ playlist_suffix_supported playlist_plugins
                 playlist_plugins_enabled suffix = false))
  \/ (exists w1,
        input_stream_Open path_fs w = (false, w1)
        /\ tr = [path_open false] /\ r = None /\ w' = w1)
  \/ (exists suffix w1 w3 probes,
        uri_get_suffix path_fs = Some suffix
        /\ input_stream_Open path_fs w = (true, w1)
        /\ playlist_list_open_stream_suffix playlist_plugins
             playlist_plugins_enabled (LockWaitReady w1) suffix
           = (r, w3, stream_probes by_suffix probes)
        /\ tr = path_open true
                :: map path_registry (stream_probes by_suffix probes)
                ++ (if found r then [] else [path_close])
        /\ w' = (if found r then w3 else Close w3)
        /\ first_success (found r) (map snd probes)
        /\ Forall (fun p =>
                     probed_plugin playlist_plugins playlist_plugins_enabled
                       open_stream suffixes suffix (fst p))
                  probes).
Proof.
  unfold playlist_list_open_path.
  destruct (uri_get_suffix path_fs) as [suffix|] eqn:Su.
  2:{ intros E. injection E as <- <- <-. left.
      repeat split. left. reflexivity. }
  destruct (playlist_suffix_supported playlist_plugins
              playlist_plugins_enabled suffix) eqn:Sup; cbn [negb].
  2:{ intros E. injection E as <- <- <-. left.
      repeat split. right. exists suffix. split; [reflexivity | exact Sup]. }
  destruct (input_stream_Open path_fs w) as [[|] w1].
  2:{ intros E. injection E as <- <- <-. right. left.
      exists w1. repeat split. }
  destruct (playlist_list_open_stream_suffix playlist_plugins
              playlist_plugins_enabled (LockWaitReady w1) suffix)
    as [[r2 w2] tr2] eqn:E2.
  pose proof E2 as E3. unfold playlist_list_open_stream_suffix in E3.
  destruct (stream_loop_shape playlist_plugins playlist_plugins_enabled
              by_suffix suffixes suffix playlist_plugins [] 0 _ _ _ _
              eq_refl eq_refl E3) as (probes & -> & _ & FS & Q).
  intros E. right. right. exists suffix, w1, w2, probes.
  destruct r2 as [playlist|]; injection E as <- <- <-; cbn [found].
  - rewrite app_nil_r. repeat split; assumption.
  - repeat split; assumption.
Qed.

(** X15: [playlist_list_open_path] closes the stream exactly when it
    opened one and no plugin accepted it, so a returned provider always
    comes with its stream still open; it selects plugins by suffix only,
    never by MIME type.  In full: either the path has no suffix or no
    enabled plugin lists it, and nothing is touched; or the file cannot
    be opened; or the opened stream goes through
    [playlist_list_open_stream_suffix] with the suffix of the path, every
    plugin asked being an enabled one that can open streams and lists
    that suffix, and the world afterwards is the one this pass left, with
    [Close] applied to it exactly when no provider came back. *)
Theorem open_path_closes_rejected_stream path_fs w r w' tr :
  playlist_list_open_path input_stream_Open Close playlist_plugins
    playlist_plugins_enabled path_fs w
  = (r, w', tr) ->
  (In path_close tr <-> In (path_open true) tr /\ r = None)
  /\ (r <> None -> In (path_open true) tr)
  /\ (forall c, In (path_registry c) tr ->
        c = call_seek \/ exists j ok, c = call_open_stream by_suffix j ok)
  /\ ((tr = [] /\ r = None /\ w' = w
       /\ (uri_get_suffix path_fs = None
           \/ exists suffix,
                uri_get_suffix path_fs = Some suffix
                /\ playlist_suffix_supported playlist_plugins
                     playlist_plugins_enabled suffix = false))
      \/ (exists w1,
            input_stream_Open path_fs w = (false, w1)
            /\ tr = [path_open false] /\ r = None /\ w' = w1)
      \/ (exists suffix w1 w3 probes,
            uri_get_suffix path_fs = Some suffix
            /\ input_stream_Open path_fs w = (true, w1)
            /\ playlist_list_open_stream_suffix playlist_plugins
                 playlist_plugins_enabled (LockWaitReady w1) suffix
               = (r, w3, stream_probes by_suffix probes)
            /\ tr = path_open true
                    :: map path_registry (stream_probes by_suffix probes)
                    ++ (if found r then [] else [path_close])
            /\ w' = (if found r then w3 else Close w3)
            /\ first_success (found r) (map snd probes)
            /\ Forall (fun p =>
                         probed_plugin playlist_plugins
                           playlist_plugins_enabled open_stream suffixes
                           suffix (fst p))
                      probes)).
Proof.
  intros Run.
  assert (Calls :
    (In path_close tr <-> In (path_open true) tr /\ r = None)
    /\ (r <> None -> In (path_open true) tr)
    /\ (forall c, In (path_registry c) tr ->
          c = call_seek \/ exists j ok, c = call_open_stream by_suffix j ok)).
  { revert Run.
  unfold playlist_list_open_path.
  assert (nothing : forall w0 : W, (None, w0, []) = (r, w', tr) ->
            (In path_close tr <-> In (path_open true) tr /\ r = None)
            /\ (r <> None -> In (path_open true) tr)
            /\ (forall c, In (path_registry c) tr ->
                  c = call_seek
                  \/ exists j ok, c = call_open_stream by_suffix j ok)).
  { intros w0 E. injection E as <- <- <-.
    split; [split; [intros [] | intros [[] _]]|].
    split; [intros C; contradiction | intros ? []]. }
  destruct (uri_get_suffix path_fs) as [suffix|]; [|apply nothing].
  destruct (playlist_suffix_supported playlist_plugins
              playlist_plugins_enabled suffix); [|apply nothing].
  cbn [negb].
  destruct (input_stream_Open path_fs w) as [[|] w1].
  - destruct (playlist_list_open_stream_suffix playlist_plugins
                playlist_plugins_enabled (LockWaitReady w1) suffix)
      as [[r2 w2] tr2] eqn:E2.
    unfold playlist_list_open_stream_suffix in E2.
    destruct (stream_loop_shape playlist_plugins playlist_plugins_enabled
                by_suffix suffixes suffix playlist_plugins [] 0 _ _ _ _
                eq_refl eq_refl E2) as (probes & -> & _).
    assert (R : forall c l, In (path_registry c) (map path_registry l)
                            -> In c l).
    { intros c l Hc. apply in_map_iff in Hc.
      destruct Hc as (x & Q & Hx). injection Q as ->. exact Hx. }
    assert (NC : forall l, ~ In path_close (map path_registry l)).
    { intros l Hc. apply in_map_iff in Hc.
      destruct Hc as (x & Q & _). discriminate. }
    destruct r2 as [playlist|]; intros E; injection E as <- <- <-.
    + split; [split|split].
      * intros [C|C]; [discriminate | contradiction (NC _ C)].
      * intros [_ C]. discriminate.
      * intros _. left. reflexivity.
      * intros c [C|C]; [discriminate|].
        apply (stream_probe_calls by_suffix probes), R, C.
    + split; [split|split].
      * intros _. split; [left; reflexivity | reflexivity].
      * intros _. right. apply in_or_app. right. left. reflexivity.
      * intros C. contradiction.
      * intros c [C|C]; [discriminate|].
        apply in_app_or in C. destruct C as [C|[C|[]]]; [|discriminate].
        apply (stream_probe_calls by_suffix probes), R, C.
  - intros E. injection E as <- <- <-.
    split; [split|split].
    + intros [C|[]]. discriminate.
    + intros [[C|[]] _]. discriminate.
    + intros C. contradiction.
    + intros c [C|[]]. discriminate. }
  destruct Calls as (A & B & C).
  split; [exact A|]. split; [exact B|]. split; [exact C|].
  exact (open_path_cases path_fs w r w' tr Run).
Qed.

Lemma stream_none_eligible via names needle ps : forall i w,
  (forall k q, ps !! k = Some q ->
     eligible (flag playlist_plugins_enabled (i + k)) (open_stream q)
       (names q) needle = None) ->
  open_stream_from playlist_plugins_enabled via names i ps needle w
  = (None, w, []).
Proof.
  induction ps as [|q rest IH]; intros i w Hn; [reflexivity|].
  cbn [open_stream_from].
  pose proof (Hn 0 q eq_refl) as H0. rewrite Nat.add_0_r in H0. rewrite H0.
  apply IH. intros k q' Hq. specialize (Hn (S k) q' Hq).
  replace (i + S k) with (S i + k) in Hn by lia. exact Hn.
Qed.

(** X16: [playlist_suffix_supported] does not ask whether a plugin can
    open streams; so when the plugins that list the suffix of a path can
    only open URIs, [playlist_list_open_path] opens the file, probes
    nothing, closes the file and returns NULL. *)
Theorem open_path_opens_for_uri_only_plugins path_fs suffix w w1 :
  uri_get_suffix path_fs = Some suffix ->
  playlist_suffix_supported playlist_plugins playlist_plugins_enabled suffix
  = true ->
  none_eligible playlist_plugins playlist_plugins_enabled open_stream suffixes
    suffix ->
  input_stream_Open path_fs w = (true, w1) ->
  playlist_list_open_path input_stream_Open Close playlist_plugins
    playlist_plugins_enabled path_fs w
  = (None, Close (LockWaitReady w1), [path_open true; path_close]).
Proof.
  intros Su Sp N O. unfold playlist_list_open_path.
  rewrite Su, Sp, O. cbn [negb].
  unfold playlist_list_open_stream_suffix.
  rewrite stream_none_eligible; [reflexivity|].
  intros k q Hq. exact (N k q Hq).
Qed.

End RegistryResolution.

Section RegistryStartup.

Context `{External}.
Variable playlist_plugins : list playlist_plugin.

(** X17: looking up a plugin's block returns the first block that bears
    its name; blocks after it, duplicates included, are not looked at. *)
Theorem config_first_match_wins pre param post plugin_name :
  Forall (names_other plugin_name) pre ->
  GetBlockValue param "name" = Some plugin_name ->
  playlist_plugin_config (pre ++ param :: post) plugin_name = block param.
Proof.
  intros Hp Hn. unfold playlist_plugin_config.
  induction Hp as [|q pre' (n & Q1 & Q2) _ IH]; simpl.
  - rewrite Hn. unfold streq. rewrite String.eqb_refl. reflexivity.
  - rewrite Q1, Q2. exact IH.
Qed.

Lemma config_named_not_fatal conf plugin_name :
  all_named conf ->
  playlist_plugin_config conf plugin_name <> fatal_error.
Proof.
  unfold playlist_plugin_config.
  induction 1 as [|q rest Q _ IH]; simpl; [discriminate|].
  destruct (GetBlockValue q "name") as [n|]; [|contradiction].
  destruct (streq n plugin_name); [discriminate | exact IH].
Qed.

Lemma init_from_completes conf ps :
  all_named conf ->
  forall i enabled w, global_init_from conf i ps enabled w <> None.
Proof.
  intros N. induction ps as [|plugin rest IH]; intros i enabled w;
    [discriminate|].
  cbn [global_init_from].
  pose proof (config_named_not_fatal conf (name plugin) N) as NF.
  assert (R : forall param,
            (let '(ok, w1) := playlist_plugin_init plugin param w in
             match global_init_from conf (S i) rest (<[i := ok]> enabled) w1
             with
             | Some (en, w2, tr) => Some (en, w2, call_init i ok :: tr)
             | None => None
             end) <> None).
  { intros param. destruct (playlist_plugin_init plugin param w) as [ok w1].
    pose proof (IH (S i) (<[i := ok]> enabled) w1) as Q.
    destruct (global_init_from conf (S i) rest (<[i := ok]> enabled) w1)
      as [[[en w2] tr]|]; [discriminate | contradiction]. }
  destruct (playlist_plugin_config conf (name plugin)) as [| |param];
    [contradiction | apply R |].
  destruct (negb (GetBlockValue_bool param "enabled" true));
    [apply IH | apply R].
Qed.

(** X18: when every configuration block has a name,
    [playlist_list_global_init] runs to its end; and a block without a
    name that is reached while looking up the first plugin ends the
    process before any plugin is initialised. *)
Theorem startup_ends_only_on_nameless_block conf w :
  (all_named conf ->
   exists en w1 tr,
     playlist_list_global_init playlist_plugins conf w = Some (en, w1, tr))
  /\ (forall plugin rest pre param post,
        playlist_plugins = plugin :: rest ->
        conf = pre ++ param :: post ->
        Forall (names_other (name plugin)) pre ->
        GetBlockValue param "name" = None ->
        playlist_list_global_init playlist_plugins conf w = None).
Proof.
  split.
  - intros N. unfold playlist_list_global_init.
    pose proof (init_from_completes conf playlist_plugins N 0
                  (playlist_plugins_enabled_initially playlist_plugins) w)
      as Q.
    destruct (global_init_from conf 0 playlist_plugins
                (playlist_plugins_enabled_initially playlist_plugins) w)
      as [[[en w1] tr]|]; [eauto | contradiction].
  - intros plugin rest pre param post -> -> Hp Hn.
    unfold playlist_list_global_init. cbn [global_init_from].
    assert (F : playlist_plugin_config (pre ++ param :: post) (name plugin)
                = fatal_error).
    { unfold playlist_plugin_config.
      induction Hp as [|q pre' (n & Q1 & Q2) _ IH]; simpl.
      - rewrite Hn. reflexivity.
      - rewrite Q1, Q2. exact IH. }
    rewrite F. reflexivity.
Qed.

Lemma config_skips_other pre param post plugin_name :
  names_other plugin_name param ->
  playlist_plugin_config (pre ++ param :: post) plugin_name
  = playlist_plugin_config (pre ++ post) plugin_name.
Proof.
  intros (n & Q1 & Q2). unfold playlist_plugin_config.
  induction pre as [|q pre' IH]; simpl.
  - rewrite Q1, Q2. reflexivity.
  - destruct (GetBlockValue q "name") as [m|]; [|reflexivity].
    destruct (streq m plugin_name); [reflexivity | exact IH].
Qed.

(** X19: a configuration block that names no plugin of the table is
    ignored: startup goes exactly as without it. *)
Theorem unknown_plugin_block_is_ignored pre param post w :
  Forall (fun plugin => names_other (name plugin) param) playlist_plugins ->
  playlist_list_global_init playlist_plugins (pre ++ param :: post) w
  = playlist_list_global_init playlist_plugins (pre ++ post) w.
Proof.
  unfold playlist_list_global_init.
  generalize (playlist_plugins_enabled_initially playlist_plugins).
  generalize 0. revert w.
  induction playlist_plugins as [|plugin rest IH]; intros w i enabled U;
    [reflexivity|].
  inversion U as [|? ? U1 U2]; subst.
  cbn [global_init_from].
  rewrite (config_skips_other pre param post (name plugin) U1).
  destruct (playlist_plugin_config (pre ++ post) (name plugin)) as [| |q];
    [reflexivity| |].
  - destruct (playlist_plugin_init plugin empty_param w) as [ok w1].
    rewrite (IH w1 (S i) _ U2). reflexivity.
  - destruct (negb (GetBlockValue_bool q "enabled" true)).
    + apply (IH w (S i) _ U2).
    + destruct (playlist_plugin_init plugin q w) as [ok w1].
      rewrite (IH w1 (S i) _ U2). reflexivity.
Qed.

Lemma flag_insert_false (l : list bool) i j :
  flag (<[i := false]> l) j = true -> flag l j = true.
Proof.
  destruct (decide (i = j)) as [->|N].
  - destruct (decide (j < length l)) as [L|L].
    + rewrite flag_insert_eq by exact L. discriminate.
    + rewrite list_insert_ge by lia. auto.
  - rewrite flag_insert_ne by exact N. auto.
Qed.

Lemma init_from_shape conf ps : forall i enabled w en w' tr,
  global_init_from conf i ps enabled w = Some (en, w', tr) ->
  (exists results,
      tr = init_calls results /\ ascending i (map fst results))
  /\ (forall j, flag en j = true ->
        flag enabled j = true \/ In (call_init j true) tr).
Proof.
  induction ps as [|plugin rest IH]; intros i enabled w en w' tr E.
  - injection E as <- <- <-. split; [exists []; split; [reflexivity|exact I]|].
    auto.
  - apply global_init_from_cons in E.
    destruct E as [(param & _ & _ & E)|(param & ok & w1 & tr0 & _ & E & -> & _)];
      apply IH in E; destruct E as ((results & -> & A) & B).
    + split; [|exact B].
      exists results. split; [reflexivity|].
      apply (ascending_weaken _ (S i)); [lia | exact A].
    + split.
      * exists ((i, ok) :: results). split; [reflexivity|].
        simpl. split; [lia | exact A].
      * intros j Hj. destruct (B j Hj) as [C|C]; [|right; right; exact C].
        destruct ok.
        -- destruct (decide (i = j)) as [->|N];
             [right; left; reflexivity|].
           left. rewrite flag_insert_ne in C by exact N. exact C.
        -- left. apply (flag_insert_false enabled i j C).
Qed.

(** X20: after [playlist_list_global_init] a plugin's flag is set
    exactly when its init was called and returned true; the flags array
    keeps its one slot per table entry plus one; and init is called in
    table order, at most once per plugin. *)
Theorem enabled_iff_init_succeeded conf w en w1 tr :
  playlist_list_global_init playlist_plugins conf w = Some (en, w1, tr) ->
  (forall i, flag en i = true <-> In (call_init i true) tr)
  /\ length en = S (length playlist_plugins)
  /\ exists results,
       tr = init_calls results /\ ascending 0 (map fst results).
Proof.
  unfold playlist_list_global_init. intros E.
  destruct (init_from_shape conf _ _ _ _ _ _ _ E) as [Sh B].
  destruct (init_from_frame conf _ _ _ _ _ _ _ E) as (L & _ & _).
  unfold playlist_plugins_enabled_initially in L, B.
  rewrite length_replicate in L.
  split; [|split; [exact L | exact Sh]].
  intros i. split.
  - intros F. destruct (B i F) as [C|C]; [|exact C].
    exfalso. unfold flag in C.
    destruct (replicate (S (length playlist_plugins)) false !! i) as [b|] eqn:R;
      [|discriminate].
    apply lookup_replicate in R. destruct R as [-> _]. discriminate.
  - intros Hin.
    apply (init_from_results conf _ _ _ _ _ _ _ E); [|exact Hin].
    unfold playlist_plugins_enabled_initially.
    rewrite length_replicate. lia.
Qed.

End RegistryStartup.

(** ** The sample check of the PCM packing test *)

Import PcmPackTest.

Section PcmPackTestFacts.

Local Open Scope Z_scope.

Lemma land_high_low hi lo n :
  0 <= n -> 0 <= lo < 2 ^ n -> Z.land (hi * 2 ^ n) lo = 0.
Proof.
  intros Hn Hlo. apply Z.bits_inj'. intros k Hk.
  rewrite Z.land_spec, Z.bits_0.
  destruct (Z.lt_ge_cases k n) as [L|L].
  - rewrite Z.mul_pow2_bits_low by lia. reflexivity.
  - rewrite <- (Z.mod_small lo (2 ^ n)) by lia.
    rewrite Z.mod_pow2_bits_high by lia. apply andb_false_r.
Qed.

Lemma lor_high_low hi lo n :
  0 <= n -> 0 <= lo < 2 ^ n -> Z.lor (hi * 2 ^ n) lo = hi * 2 ^ n + lo.
Proof.
  intros Hn Hlo. pose proof (land_high_low hi lo n Hn Hlo) as D.
  rewrite <- (Z.lxor_lor _ _ D). symmetry. apply Z.add_nocarry_lxor, D.
Qed.

Lemma three_bytes_value hi mid lo :
  is_byte hi -> is_byte mid -> is_byte lo ->
  Z.lor (Z.lor (Z.shiftl hi 16) (Z.shiftl mid 8)) lo
  = hi * 65536 + mid * 256 + lo.
Proof.
  unfold is_byte. intros Hh Hm Hl.
  rewrite !Z.shiftl_mul_pow2 by lia.
  rewrite (lor_high_low hi (mid * 2 ^ 8) 16) by lia.
  replace (hi * 2 ^ 16 + mid * 2 ^ 8) with ((hi * 2 ^ 8 + mid) * 2 ^ 8)
    by lia.
  rewrite (lor_high_low (hi * 2 ^ 8 + mid) lo 8) by lia. lia.
Qed.

Lemma sign_extend_24 d :
  0 <= d < 2 ^ 24 ->
  (if Z.land d 8388608 =? 0 then d
   else SoundCloud.int_wrap (Z.lor d 4278190080))
  = if d <? 2 ^ 23 then d else d - 2 ^ 24.
Proof.
  intros R.
  destruct (Z.ltb_spec d (2 ^ 23)) as [L|L].
  - rewrite Z.land_comm.
    change 8388608 with (1 * 2 ^ 23).
    rewrite (land_high_low 1 d 23) by lia. reflexivity.
  - assert (E : d = 1 * 2 ^ 23 + (d - 2 ^ 23)) by lia.
    assert (B : Z.land d 8388608 = 8388608).
    { rewrite E at 1. rewrite <- (lor_high_low 1 (d - 2 ^ 23) 23) by lia.
      rewrite Z.land_lor_distr_l.
      change 8388608 with (1 * 2 ^ 23) at 2.
      rewrite (Z.land_comm (d - 2 ^ 23)), (land_high_low 1 (d - 2 ^ 23) 23)
        by lia.
      reflexivity. }
    rewrite B. cbn [Z.eqb Pos.eqb].
    rewrite Z.lor_comm. change 4278190080 with (255 * 2 ^ 24).
    rewrite (lor_high_low 255 d 24) by lia.
    unfold SoundCloud.int_wrap.
    replace (255 * 2 ^ 24 + d + 2 ^ 31)
      with (d - 2 ^ 24 + 2 ^ 31 + 1 * 2 ^ 32) by lia.
    rewrite Z.mod_add by lia. rewrite Z.mod_small by lia. lia.
Qed.

(** X21: on a little-endian machine, the value the packing test
    rebuilds from three bytes equals a 24 bit sample [s] exactly when the
    bytes are the three low bytes of [s] in two's complement, least
    significant first; so the test accepts one packing only. The value is
    always within the 24 bit range, and a big-endian machine reads the
    same bytes in the opposite order. *)
Theorem rebuilt_sample_matches_one_packing b0 b1 b2 s :
  is_byte b0 -> is_byte b1 -> is_byte b2 ->
  - 2 ^ 23 <= s < 2 ^ 23 ->
  - 2 ^ 23 <= rebuilt_sample false b0 b1 b2 < 2 ^ 23
  /\ (rebuilt_sample false b0 b1 b2 = s
      <-> b0 = s mod 256 /\ b1 = (s / 256) mod 256
          /\ b2 = (s / 65536) mod 256)
  /\ rebuilt_sample true b2 b1 b0 = rebuilt_sample false b0 b1 b2.
Proof.
  intros H0 H1 H2 Hs.
  cut (- 2 ^ 23 <= rebuilt_sample false b0 b1 b2 < 2 ^ 23
       /\ (rebuilt_sample false b0 b1 b2 = s
           <-> b0 = s mod 256 /\ b1 = (s / 256) mod 256
               /\ b2 = (s / 65536) mod 256)).
  { intros [A B]. split; [exact A|]. split; [exact B | reflexivity]. }
  unfold rebuilt_sample.
  rewrite (three_bytes_value b2 b1 b0 H2 H1 H0).
  unfold is_byte in *.
  rewrite sign_extend_24 by lia.
  change (2 ^ 23) with 8388608 in *. change (2 ^ 24) with 16777216 in *.
  destruct (Z.ltb_spec (b2 * 65536 + b1 * 256 + b0) 8388608) as [L|L];
    (split; [lia|]);
    (split; [intros <- | intros (E0 & E1 & E2)]);
    Z.div_mod_to_equations; lia.
Qed.

End PcmPackTestFacts.

(** ** Runs of the added facts on sample inputs *)

Lemma open_uri_accepts_three_forms_witness :
  exists kind rest,
    (kind = "track" \/ kind = "playlist" \/ kind = "url")%string
    /\ ("soundcloud://track/2"%string = ("soundcloud://" ++ kind)%string
        \/ "soundcloud://track/2"%string
           = ("soundcloud://" ++ kind ++ "/" ++ rest)%string).
Proof.
  apply (open_uri_accepts_three_forms (Some "KEY"%string) false
           (serve doc_bare) (mkGarbage 0 0) "soundcloud://track/2"
           [mkSong (Some "http://a/2?client_id=KEY"%string) (mkTag 0 [])]).
  reflexivity.
Defined.

Lemma open_uri_only_contacts_api_witness :
  soundcloud_open_uri (Some "KEY"%string) false (serve doc_bare)
    (mkGarbage 0 0) "soundcloud://track/2"
  = soundcloud_open_uri (Some "KEY"%string) false
      (fun url => if String.prefix api_host url then serve doc_bare url
                  else None)
      (mkGarbage 0 0) "soundcloud://track/2".
Proof.
  apply (open_uri_only_contacts_api (Some "KEY"%string) false).
  intros url P. rewrite P. reflexivity.
Defined.

Lemma resolve_normalises_page_address_witness :
  soundcloud_resolve (Some "KEY"%string) "soundcloud.com/some-user/a-set"
  = soundcloud_resolve (Some "KEY"%string) "some-user/a-set"
  /\ soundcloud_resolve (Some "KEY"%string)
       "http://soundcloud.com/some-user/a-set"
     = soundcloud_resolve (Some "KEY"%string) "some-user/a-set".
Proof.
  apply (resolve_normalises_page_address (Some "KEY"%string)
           "some-user/a-set"); reflexivity.
Defined.

Lemma provider_only_from_finished_stream_witness :
  exists url stream,
    String.prefix api_host url = true
    /\ serve doc_broken_after_first url = Some stream
    /\ (decode_error_in false stream \/ exists c, ending stream = at_eof c)
    /\ [mkSong (Some "http://a/1?client_id=KEY"%string) (mkTag 5 [])]
       = in_document_order (Some "KEY"%string)
           (events_delivered false (reads stream) (ending stream))
           (initial_data (mkGarbage 0 0)).
Proof.
  apply (provider_only_from_finished_stream (Some "KEY"%string) false
           (serve doc_broken_after_first) (mkGarbage 0 0)
           "soundcloud://track/1").
  reflexivity.
Defined.

Lemma mapkey_selects_by_prefix_witness :
  key (handle_mapkey "dur" (initial_data (mkGarbage Other 0))) = Duration.
Proof.
  apply (mapkey_selects_by_prefix "dur" (initial_data (mkGarbage Other 0))).
  reflexivity.
Defined.

Lemma nested_objects_do_not_close_record_witness :
  (forall seen coming,
      [yajl_map_key "user"; yajl_start_map; yajl_map_key "id";
       yajl_integer 3; yajl_end_map] = seen ++ coming ->
      let dm := deliver (Some "KEY"%string)
                  (yajl_start_map :: yajl_map_key "stream_url"
                     :: yajl_string "http://a/1" :: seen)
                  (initial_data (mkGarbage Other 0)) in
      songs dm = songs (initial_data (mkGarbage Other 0))
      /\ (0 < got_url dm)%Z)
  /\ let d' := deliver (Some "KEY"%string)
                 (yajl_start_map :: yajl_map_key "stream_url"
                    :: yajl_string "http://a/1"
                    :: [yajl_map_key "user"; yajl_start_map;
                        yajl_map_key "id"; yajl_integer 3; yajl_end_map]
                       ++ [yajl_end_map])
                 (initial_data (mkGarbage Other 0)) in
     got_url d' = 0%Z
     /\ exists t,
          songs d'
          = mkSong (Some (concat_until_null
                            [Some (c_str "http://a/1");
                             Some "?client_id="%string; Some "KEY"%string]))
                   t
            :: songs (initial_data (mkGarbage Other 0)).
Proof.
  apply (nested_objects_do_not_close_record (Some "KEY"%string) "http://a/1"
           [yajl_map_key "user"; yajl_start_map; yajl_map_key "id";
            yajl_integer 3; yajl_end_map]
           (initial_data (mkGarbage Other 0))).
  - apply balanced_leaf; [reflexivity|].
    apply (balanced_map [yajl_map_key "id"; yajl_integer 3] []).
    + apply balanced_leaf; [reflexivity|].
      apply balanced_leaf; [reflexivity|]. apply balanced_nil.
    + apply balanced_nil.
  - repeat (constructor; [reflexivity|]). constructor.
  - exact I.
  - reflexivity.
  - reflexivity.
Defined.

Lemma chunking_is_irrelevant_witness :
  soundcloud_parse_json (Some "KEY"%string) true
    (fun _ => Some (mkStream [mkCall obj_titled yajl_status_insufficient_data;
                              mkCall obj_bare yajl_status_ok]
                      (at_eof (mkCall [] yajl_status_ok))))
    "http://api.soundcloud.com/playlists/1.json"
    (initial_data (mkGarbage Other 0))
  = soundcloud_parse_json (Some "KEY"%string) true
      (fun _ => Some (mkStream [mkCall (obj_titled ++ obj_bare)
                                  yajl_status_insufficient_data]
                        (at_eof (mkCall [] yajl_status_ok))))
      "http://api.soundcloud.com/playlists/1.json"
      (initial_data (mkGarbage Other 0)).
Proof.
  apply (chunking_is_irrelevant (Some "KEY"%string) true _ _ _
           [mkCall obj_titled yajl_status_insufficient_data;
            mkCall obj_bare yajl_status_ok]
           (mkCall [] yajl_status_ok)
           [mkCall (obj_titled ++ obj_bare) yajl_status_insufficient_data]
           (mkCall [] yajl_status_ok)).
  - reflexivity.
  - reflexivity.
  - repeat constructor.
  - repeat constructor.
  - reflexivity.
Defined.

Lemma rebuilt_sample_matches_one_packing_witness :
  rebuilt_sample false 255 255 255 = (-1)%Z.
Proof.
  apply (proj2 (proj1 (proj2 (rebuilt_sample_matches_one_packing
                                255 255 255 (-1)
                                ltac:(unfold is_byte; lia)
                                ltac:(unfold is_byte; lia)
                                ltac:(unfold is_byte; lia)
                                ltac:(lia))))).
  repeat split.
Defined.

Lemma open_uri_probes_in_table_order_witness :
  exists by_scheme_probes by_suffix_probes,
    [call_open_uri by_scheme 3 false]
    = uri_probes by_scheme by_scheme_probes
      ++ uri_probes by_suffix by_suffix_probes
    /\ ascending 0 (map fst by_scheme_probes)
    /\ ascending 0 (map fst by_suffix_probes)
    /\ first_success false (map snd (by_scheme_probes ++ by_suffix_probes))
    /\ (forall p, In p by_scheme_probes ->
          exists scheme,
            Sample.scheme_of "http://host/list.xml" = Some scheme
            /\ @probed_plugin Sample.installation Sample.plugins
                 Sample.all_enabled _ open_uri schemes scheme (fst p))
    /\ (forall p, In p by_suffix_probes ->
          exists suffix,
            Sample.suffix_of "http://host/list.xml" = Some suffix
            /\ @probed_plugin Sample.installation Sample.plugins
                 Sample.all_enabled _ open_uri suffixes suffix (fst p)).
Proof.
  apply (@open_uri_probes_in_table_order Sample.installation Sample.plugins
           Sample.all_enabled "http://host/list.xml" Sample.idle
           None Sample.idle [call_open_uri by_scheme 3 false]).
  reflexivity.
Defined.


Lemma scheme_match_wins_witness :
  @playlist_list_open_uri Sample.installation SampleFiles.more_plugins
    SampleFiles.more_enabled "radio://jazz.m3u" Sample.idle
  = (Some [mkSong (Some "radio://jazz.m3u"%string) (mkTag 0 [])],
     Sample.idle, [call_open_uri by_scheme 2 true]).
Proof.
  refine (@scheme_match_wins Sample.installation SampleFiles.more_plugins
            SampleFiles.more_enabled "radio://jazz.m3u" "radio" 2
            SampleFiles.radio_plugin _ ["radio"%string] _ Sample.idle
            Sample.idle eq_refl eq_refl eq_refl eq_refl eq_refl eq_refl _
            eq_refl).
  intros k q Hk L.
  destruct k as [|[|k]]; [| |lia]; injection L as <-; reflexivity.
Defined.

Lemma unclaimed_scheme_falls_back_to_suffix_witness :
  @playlist_list_open_uri Sample.installation Sample.plugins
    Sample.all_enabled "ftp://host/list.xml" Sample.idle
  = @playlist_list_open_uri_suffix Sample.installation Sample.plugins
      Sample.all_enabled "ftp://host/list.xml"
      [false; false; false; false] Sample.idle.
Proof.
  apply (@unclaimed_scheme_falls_back_to_suffix Sample.installation
           Sample.plugins Sample.all_enabled "ftp://host/list.xml"
           Sample.idle).
  intros scheme E j plugin L. injection E as <-.
  destruct j as [|[|[|[|j]]]]; try discriminate;
    injection L as <-; reflexivity.
Defined.

Lemma open_path_fails_fast_witness :
  @playlist_list_open_path Sample.installation SampleFiles.open_file
    SampleFiles.close_file SampleFiles.more_plugins SampleFiles.more_enabled
    "/music/list.m3u" Sample.idle
  = (None, Sample.idle, []).
Proof.
  apply (@open_path_fails_fast Sample.installation SampleFiles.open_file
           SampleFiles.close_file SampleFiles.more_plugins
           SampleFiles.more_enabled "/music/list.m3u" Sample.idle).
  intros suffix j plugin l E L En S. injection E as <-.
  destruct j as [|[|[|j]]]; try discriminate;
    injection L as <-; try discriminate;
    injection S as <-; reflexivity.
Defined.

Lemma open_path_closes_rejected_stream_witness :
  (In path_close [path_open true; path_close]
   <-> In (path_open true) [path_open true; path_close]
       /\ @None (@playlist_provider Sample.installation) = None)
  /\ (@None (@playlist_provider Sample.installation) <> None
      -> In (path_open true) [path_open true; path_close])
  /\ (forall c, In (path_registry c) [path_open true; path_close] ->
        c = call_seek \/ exists j ok, c = call_open_stream by_suffix j ok)
  /\ (([path_open true; path_close] = []
       /\ @None (@playlist_provider Sample.installation) = None
       /\ Sample.idle = Sample.xml_stream
       /\ (Sample.suffix_of "/music/list.rpl" = None
           \/ exists suffix,
                Sample.suffix_of "/music/list.rpl" = Some suffix
                /\ @playlist_suffix_supported Sample.installation
                     SampleFiles.more_plugins SampleFiles.more_enabled suffix
                   = false))
      \/ (exists w1,
            SampleFiles.open_file "/music/list.rpl" Sample.xml_stream
            = (false, w1)
            /\ [path_open true; path_close] = [path_open false]
            /\ @None (@playlist_provider Sample.installation) = None
            /\ Sample.idle = w1)
      \/ (exists suffix w1 w3 probes,
            Sample.suffix_of "/music/list.rpl" = Some suffix
            /\ SampleFiles.open_file "/music/list.rpl" Sample.xml_stream
               = (true, w1)
            /\ @playlist_list_open_stream_suffix Sample.installation
                 SampleFiles.more_plugins SampleFiles.more_enabled w1 suffix
               = (None, w3, stream_probes by_suffix probes)
            /\ [path_open true; path_close]
               = path_open true
                 :: map path_registry (stream_probes by_suffix probes)
                 ++ [path_close]
            /\ Sample.idle = SampleFiles.close_file w3
            /\ first_success false (map snd probes)
            /\ Forall (fun p =>
                         @probed_plugin Sample.installation
                           SampleFiles.more_plugins SampleFiles.more_enabled
                           _ open_stream suffixes suffix (fst p))
                      probes)).
Proof.
  apply (@open_path_closes_rejected_stream Sample.installation
           SampleFiles.open_file SampleFiles.close_file
           SampleFiles.more_plugins SampleFiles.more_enabled
           "/music/list.rpl" Sample.xml_stream None Sample.idle
           [path_open true; path_close]).
  reflexivity.
Defined.

Lemma open_path_opens_for_uri_only_plugins_witness :
  @playlist_list_open_path Sample.installation SampleFiles.open_file
    SampleFiles.close_file SampleFiles.more_plugins SampleFiles.more_enabled
    "/music/list.rpl" Sample.idle
  = (None, Sample.idle, [path_open true; path_close]).
Proof.
  refine (@open_path_opens_for_uri_only_plugins Sample.installation
            SampleFiles.open_file SampleFiles.close_file
            SampleFiles.more_plugins SampleFiles.more_enabled
            "/music/list.rpl" "rpl" Sample.idle Sample.idle
            eq_refl eq_refl _ eq_refl).
  intros j plugin L.
  destruct j as [|[|[|j]]]; try discriminate;
    injection L as <-; reflexivity.
Defined.

Lemma config_first_match_wins_witness :
  @playlist_plugin_config Sample.installation
    (Sample.mpd_conf ++ [[("name", "soundcloud"); ("enabled", "no")]%string])
    "soundcloud"
  = @block Sample.installation [("name", "soundcloud")]%string.
Proof.
  apply (@config_first_match_wins Sample.installation
           [[("name", "m3u"); ("enabled", "no")]%string]
           [("name", "soundcloud")]%string
           [[("name", "soundcloud"); ("enabled", "no")]%string]
           "soundcloud").
  - constructor; [|constructor]. exists "m3u"%string. split; reflexivity.
  - reflexivity.
Defined.

Lemma startup_ends_only_on_nameless_block_witness :
  exists en w1 tr,
    @playlist_list_global_init Sample.installation Sample.plugins
      Sample.mpd_conf Sample.idle = Some (en, w1, tr).
Proof.
  apply (proj1 (@startup_ends_only_on_nameless_block Sample.installation
                  Sample.plugins Sample.mpd_conf Sample.idle)).
  repeat (constructor; [discriminate|]). constructor.
Defined.

Lemma unknown_plugin_block_is_ignored_witness :
  @playlist_list_global_init Sample.installation Sample.plugins
    (SampleFiles.stray_block :: Sample.mpd_conf) Sample.idle
  = @playlist_list_global_init Sample.installation Sample.plugins
      Sample.mpd_conf Sample.idle.
Proof.
  apply (@unknown_plugin_block_is_ignored Sample.installation Sample.plugins
           [] SampleFiles.stray_block Sample.mpd_conf Sample.idle).
  repeat (constructor; [exists "oggplaylist"%string; split; reflexivity|]).
  constructor.
Defined.

Lemma enabled_iff_init_succeeded_witness :
  (forall i, flag [true; false; false; true; false] i = true
             <-> In (call_init i true)
                    [call_init 0 true; call_init 2 false; call_init 3 true])
  /\ length [true; false; false; true; false] = 5
  /\ exists results,
       [call_init 0 true; call_init 2 false; call_init 3 true]
       = init_calls results
       /\ ascending 0 (map fst results).
Proof.
  apply (@enabled_iff_init_succeeded Sample.installation Sample.plugins
           Sample.mpd_conf Sample.idle [true; false; false; true; false]
           Sample.idle
           [call_init 0 true; call_init 2 false; call_init 3 true]).
  reflexivity.
Defined.
